(** * GenerateItemsEnum: identifier sanitisation and enum rendering

    A shallow embedding of [src/lib/GenerateItemsEnum.ts] and the
    properties of its [buildEnum] pipeline.

    JavaScript strings are sequences of UTF-16 code units; they are
    modelled as lists of code units, so that names holding arbitrary
    Unicode are covered.  The two [Set]s of constants and the per-call
    [usedNames] set are finite sets of such strings. *)

From Stdlib Require Import ZArith NArith List Ascii String Lia.
From Stdlib Require Import Numbers.DecimalString Numbers.DecimalZ.
From stdpp Require Import base decidable countable list gmap.
Import ListNotations.

#[local] Set Warnings "-clear-no-such-hyp".

Local Open Scope N_scope.

(** ** JavaScript strings *)

Module JS.

(** A UTF-16 code unit, as [charCodeAt] returns it. *)
Definition codeunit : Type := N.

Abbreviation jsstring := (list codeunit).

(** An ASCII literal as a JavaScript string. *)
Definition lit (s : string) : jsstring :=
  map N_of_ascii (list_ascii_of_string s).

Definition LF : codeunit := 10.
Definition SPACE : codeunit := 32.
Definition UNDERSCORE : codeunit := 95.

(** [s.charCodeAt(i)]; [None] stands for the [NaN] returned out of range. *)
Definition charCodeAt (s : jsstring) (i : nat) : option codeunit := nth_error s i.

(** [NaN >= n] and [NaN <= n] are both [false]. *)
Definition ge_num (x : option codeunit) (n : N) : bool :=
  match x with Some c => n <=? c | None => false end.
Definition le_num (x : option codeunit) (n : N) : bool :=
  match x with Some c => c <=? n | None => false end.

(** The code units [String.prototype.trim] strips: ECMAScript's WhiteSpace
    and LineTerminator productions (all of them in the basic plane). *)
Definition is_white_space (c : codeunit) : bool :=
  ((9 <=? c) && (c <=? 13)) || (c =? 32) || (c =? 160) || (c =? 5760)
  || ((8192 <=? c) && (c <=? 8202)) || (c =? 8232) || (c =? 8233)
  || (c =? 8239) || (c =? 8287) || (c =? 12288) || (c =? 65279).

Fixpoint trimStart (s : jsstring) : jsstring :=
  match s with
  | c :: t => if is_white_space c then trimStart t else s
  | [] => []
  end.

Definition trimEnd (s : jsstring) : jsstring := rev (trimStart (rev s)).

(** [s.trim()] *)
Definition trim (s : jsstring) : jsstring := trimEnd (trimStart s).

(** The character class [[A-Za-z0-9_]]. *)
Definition is_word (c : codeunit) : bool :=
  ((65 <=? c) && (c <=? 90)) || ((97 <=? c) && (c <=? 122))
  || ((48 <=? c) && (c <=? 57)) || (c =? 95).

(** A regular expression of the shape [/[...]+/g]: one or more code units
    of a character class, every match.  [in_class] decides the class. *)
Record regex : Type := ClassPlus { in_class : codeunit -> bool }.

(** [s.replace(re, rep)] for such an expression: one left-to-right scan.
    The flag [matched] is set while the scan is inside a match; the [+] is
    greedy, so a match extends over every following code unit of the
    class, and the whole match is replaced by [rep] once.  The replacement
    the program uses holds no [$] pattern. *)
Fixpoint replace_scan (re : regex) (rep : jsstring) (matched : bool) (s : jsstring)
  : jsstring :=
  match s with
  | [] => []
  | c :: t =>
      if in_class re c then
        if matched then replace_scan re rep true t
        else rep ++ replace_scan re rep true t
      else c :: replace_scan re rep false t
  end.

Definition replace (s : jsstring) (re : regex) (rep : jsstring) : jsstring :=
  replace_scan re rep false s.

(** [s.toUpperCase()] on the ASCII range: [a]-[z] go to [A]-[Z], every
    other ASCII code unit is kept.  The program only calls it on the result
    of its replacement, which holds nothing but code units of
    [[A-Za-z0-9_]] (lemma [replace_SANITIZE_REGEX_word] below), so the Unicode
    case mappings of the method are never exercised and are not modelled:
    code units above the ASCII range are kept as they are. *)
Definition upper_unit (c : codeunit) : codeunit :=
  if (97 <=? c) && (c <=? 122) then c - 32 else c.

Definition toUpperCase (s : jsstring) : jsstring := map upper_unit s.

(** [" ".repeat(count)] for an integer count, as the language defines it:
    a negative count throws a [RangeError], rendered here as [None], and
    every other count gives that many spaces.  An engine also refuses a
    result longer than its longest string; [V8.repeat_space] below adds
    that limit. *)
Definition repeat_space (count : Z) : option jsstring :=
  if (count <? 0)%Z then None else Some (repeat SPACE (Z.to_nat count)).

(** The decimal digits of an integer, with a leading minus sign below zero.
    This is what [Number::toString] prints for a safe integer (magnitude
    below 2^53), where the number the program holds is the integer itself.
    Beyond that the number is a double and is printed from its shortest
    round-tripping digits; [V8.Number_toString] below is that printing, and
    agrees with this one on the safe integers. *)
Definition Number_toString (z : Z) : jsstring :=
  lit (NilEmpty.string_of_int (Z.to_int z)).

(** [set.has(x)] on a [Set] of strings. *)
Definition has (set : gset jsstring) (x : jsstring) : bool :=
  bool_decide (x ∈ set).

(** [s.endsWith(suffix)] *)
Definition endsWith (s suffix : jsstring) : bool :=
  bool_decide (drop (List.length s - List.length suffix) s = suffix).

(** Arrays with holes: [None] is an empty slot. *)

(** [new Array(len)] *)
Definition new_Array {A} (len : nat) : list (option A) := replicate len None.

(** [a[i] = x]: a slot of the array is overwritten; an index at or past
    the end grows the array up to it. *)
Definition array_set {A} (a : list (option A)) (i : nat) (x : A) : list (option A) :=
  if decide (i < List.length a)%nat then <[i := Some x]> a
  else a ++ replicate (i - List.length a) None ++ [Some x].

(** [a.length = n]: cut off, or padded with empty slots. *)
Definition array_set_length {A} (a : list (option A)) (n : nat) : list (option A) :=
  take n a ++ replicate (n - List.length a) None.

(** [a.join(sep)]; an empty slot is joined as the empty string. *)
Fixpoint join (sep : jsstring) (a : list (option jsstring)) : jsstring :=
  match a with
  | [] => []
  | [x] => default [] x
  | x :: rest => default [] x ++ sep ++ join sep rest
  end.

End JS.
Import JS.

(** ** Completions *)

(** What a call can end in.  [Error] is the program's own [new Error(msg)];
    [RangeError] is the one [String.prototype.repeat] raises; [HostError]
    stands for whatever the file system or the JSON parser raise.
    [Diverge] marks a loop that used up the fuel the model gave it. *)
Inductive exn : Type :=
| Error (message : jsstring)
| RangeError
| HostError (message : jsstring).

Inductive completion (A : Type) : Type :=
| Normal (a : A)
| Throw (e : exn)
| Diverge.
Arguments Normal {A} a.
Arguments Throw {A} e.
Arguments Diverge {A}.

#[export] Instance completion_ret : MRet completion := fun A a => Normal a.

#[export] Instance completion_bind : MBind completion := fun A B k c =>
  match c with
  | Normal a => k a
  | Throw e => Throw e
  | Diverge => Diverge
  end.

(** ** The data file *)

Record ItemData : Type := { item_id : Z; name : jsstring }.

(** An entry of [items] is [None] where the array holds [null] or another
    falsy value: the loop tests [!item] before it reads a field. *)
Record ItemsFile : Type :=
  { version : Z; item_count : Z; items : list (option ItemData) }.

(** ** The class *)

Module GenerateItemsEnum.

Definition INVALID_NAMES : gset jsstring :=
  list_to_set (map lit [""; "0"; "NULL"; "NONE"; "N"])%string.

Definition RESERVED_KEYWORDS : gset jsstring :=
  list_to_set (map lit [
    (* C keywords *)
    "AUTO"; "BREAK"; "CASE"; "CHAR"; "CONST"; "CONTINUE"; "DEFAULT"; "DO"; "DOUBLE"; "ELSE";
    "ENUM"; "EXTERN"; "FLOAT"; "FOR"; "GOTO"; "IF"; "INT"; "LONG"; "REGISTER"; "RETURN";
    "SHORT"; "SIGNED"; "SIZEOF"; "STATIC"; "STRUCT"; "SWITCH"; "TYPEDEF"; "UNION"; "UNSIGNED";
    "VOID"; "VOLATILE"; "WHILE";
    (* C++ keywords *)
    "ASM"; "BOOL"; "CATCH"; "CLASS"; "CONST_CAST"; "DELETE"; "DYNAMIC_CAST"; "EXPLICIT";
    "EXPORT"; "FALSE"; "FRIEND"; "INLINE"; "MUTABLE"; "NAMESPACE"; "NEW"; "OPERATOR";
    "PRIVATE"; "PROTECTED"; "PUBLIC"; "REINTERPRET_CAST"; "STATIC_CAST"; "TEMPLATE"; "THIS";
    "THROW"; "TRUE"; "TRY"; "TYPEID"; "TYPENAME"; "USING"; "VIRTUAL"; "WCHAR_T";
    (* C++11 and later *)
    "ALIGNAS"; "ALIGNOF"; "CHAR16_T"; "CHAR32_T"; "CONSTEXPR"; "DECLTYPE"; "NOEXCEPT";
    "NULLPTR"; "STATIC_ASSERT"; "THREAD_LOCAL";
    (* C++20 *)
    "CONCEPT"; "REQUIRES"; "CO_AWAIT"; "CO_RETURN"; "CO_YIELD";
    (* Common macros *)
    "NULL"; "DATE"; "TIME"
  ])%string.

(** [/[^A-Za-z0-9_]+/g] *)
Definition SANITIZE_REGEX : regex := ClassPlus (fun c => negb (is_word c)).

(** The object: its one field, [null] until a file is loaded. *)
Record t : Type := { itemsData : option ItemsFile }.

Definition new : t := {| itemsData := None |}.

(** [get itemsVersion]: [this.itemsData?.version ?? -1] *)
Definition itemsVersion (this : t) : Z :=
  match itemsData this with
  | Some data => version data
  | None => (-1)%Z
  end.

(** [get itemsCount]: [this.itemsData?.item_count ?? -1] *)
Definition itemsCount (this : t) : Z :=
  match itemsData this with
  | Some data => item_count data
  | None => (-1)%Z
  end.

(** [loadFromFile(filePath)].  The file system and the JSON parser are the
    host's: [statSync_isFile p] is [fs.statSync(p).isFile()],
    [readFileSync p] is [fs.readFileSync(p, "utf-8")], and [JSON_parse] is
    [JSON.parse] read at the type the source gives its result,
    [ItemsFile | null] ([None] for a document that parses to [null]).
    Each may throw.  The source does not check the shape of the document:
    this model covers the documents of the declared shape and [null], and
    says nothing of a run on any other document. *)
Section Loader.
Variable statSync_isFile : jsstring -> completion bool.
Variable readFileSync : jsstring -> completion jsstring.
Variable JSON_parse : jsstring -> completion (option ItemsFile).

Definition loadFromFile (this : t) (filePath : jsstring) : completion t :=
  if negb (endsWith filePath (lit ".json")) then
    Throw (Error (lit "Invalid file type. Expected a .json file: " ++ filePath))
  else
    isFile ← statSync_isFile filePath;
    if negb isFile then
      Throw (Error (lit "Not a valid file: " ++ filePath))
    else
      text ← readFileSync filePath;
      parsed ← JSON_parse text;
      Normal {| itemsData := parsed |}.
End Loader.

(** Lines 89-94: the sanitised name of an item. *)
Definition sanitize (name : jsstring) : jsstring :=
  let sanitized := toUpperCase (replace (trim name) SANITIZE_REGEX (lit "_")) in
  if ge_num (charCodeAt sanitized 0) 48 && le_num (charCodeAt sanitized 0) 57
  then lit "_" ++ sanitized
  else sanitized.

(** Lines 99-101: reserved words get a trailing underscore. *)
Definition keywordGuard (sanitized : jsstring) : jsstring :=
  if has RESERVED_KEYWORDS sanitized
  then sanitized ++ lit "_"
  else sanitized.

(** [`${sanitized}_${suffix}`] *)
Definition suffixed (sanitized : jsstring) (suffix : Z) : jsstring :=
  sanitized ++ lit "_" ++ Number_toString suffix.

(** Lines 106-109: the [while] loop, entered with [finalName] and [suffix].
    The counter is a JavaScript number; it stays an exact integer far
    beyond any number of names a catalog can hold. *)
Fixpoint whileUsed (fuel : nat) (usedNames : gset jsstring)
    (sanitized finalName : jsstring) (suffix : Z) : option jsstring :=
  match fuel with
  | O => None
  | S fuel' =>
      if has usedNames finalName
      then whileUsed fuel' usedNames sanitized (suffixed sanitized suffix) (suffix + 1)
      else Some finalName
  end.

(** The loop is run on one unit of fuel more than there are used names:
    [whileUsed_enough] shows that it never runs out, and
    [whileUsed_more_fuel] that more fuel changes nothing. *)
Definition finalNameOf (usedNames : gset jsstring) (sanitized : jsstring) : option jsstring :=
  whileUsed (S (size usedNames)) usedNames sanitized sanitized 2.

(** The variables the [for] loop updates. *)
Record loopState : Type :=
  { lines : list (option jsstring); lineIdx : nat; usedNames : gset jsstring }.

(** [`${indent}${finalName} = ${item.item_id},`] *)
Definition lineOf (indent finalName : jsstring) (id : Z) : jsstring :=
  indent ++ finalName ++ lit " = " ++ Number_toString id ++ lit ",".

(** One iteration of the [for] loop. *)
Definition forBody (indent : jsstring) (st : loopState) (item : option ItemData)
  : completion loopState :=
  match item with
  | None => Normal st
  | Some item =>
      let sanitized := sanitize (name item) in
      if has INVALID_NAMES sanitized then Normal st
      else
        let sanitized := keywordGuard sanitized in
        match finalNameOf (usedNames st) sanitized with
        | None => Diverge
        | Some finalName =>
            Normal {| lines := array_set (lines st) (lineIdx st)
                                         (lineOf indent finalName (item_id item));
                      lineIdx := S (lineIdx st);
                      usedNames := {[finalName]} ∪ usedNames st |}
        end
  end.

Fixpoint forItems (indent : jsstring) (items : list (option ItemData)) (st : loopState)
  : completion loopState :=
  match items with
  | [] => Normal st
  | item :: rest => st' ← forBody indent st item; forItems indent rest st'
  end.

(** The variables when the loop is entered. *)
Definition init (len : nat) : loopState :=
  {| lines := new_Array len; lineIdx := 0; usedNames := ∅ |}.

Definition NotLoaded : exn :=
  Error (lit "Items data not loaded. Please load data before building enum.").

(** [buildEnum(tabSize = 4)]; [None] is a call without the argument. *)
Definition buildEnum (this : t) (tabSize : option Z) : completion jsstring :=
  let tabSize := default 4%Z tabSize in
  match itemsData this with
  | None => Throw NotLoaded
  | Some data =>
      let items := items data in
      let len := List.length items in
      match repeat_space tabSize with
      | None => Throw RangeError
      | Some indent =>
          st ← forItems indent items (init len);
          let lines := array_set_length (lines st) (lineIdx st) in
          Normal (lit "enum eItems {" ++ [LF] ++ join [LF] lines ++ [LF]
                  ++ lit "};" ++ [LF])
      end
  end.

End GenerateItemsEnum.
Import GenerateItemsEnum.

(** ** The engine's numbers and strings

    The definitions above read the program over exact integers and
    strings of any length.  Node's engine stores every number as a double
    and refuses strings longer than [MAX_STRING_LENGTH]; the module below
    is the same method with these two limits: an id is printed the way
    the engine prints the double nearest to it, and every string that is
    built is checked against the limit.  The counter of the [while] loop
    is bounded by the number of records, so it is always printed exactly. *)

Module V8.

(** [(1 << 29) - 24], the longest string of the engine. *)
Definition MAX_STRING_LENGTH : Z := 536870888.



(** The double nearest to an integer [x >= 0] (ties to the even mantissa):
    its value, or [None] when it is [Infinity]. *)
Definition nearest_double (x : Z) : option Z :=
  (if x <? 2 ^ 53 then Some x
   else
     let e := Z.log2 x - 52 in
     let q := x / 2 ^ e in
     let r := x mod 2 ^ e in
     let half := 2 ^ (e - 1) in
     let m := if (half <? r) || ((r =? half) && Z.odd q) then q + 1 else q in
     let v := m * 2 ^ e in
     if 2 ^ 1024 <=? v then None else Some v)%Z.

(** Whether the integer [c] is read back as the double [v >= 2^53]: it lies
    within half a gap of [v] (a quarter below a power of two), the ends
    counting when the mantissa of [v] is even.  All sides are scaled by 4. *)
Definition reads_back_as (v c : Z) : bool :=
  (let e := Z.log2 v - 52 in
   let m := v / 2 ^ e in
   let up := 2 ^ (e + 1) in
   let down := if m =? 2 ^ 52 then 2 ^ e else 2 ^ (e + 1) in
   if Z.even m
   then (4 * v - down <=? 4 * c) && (4 * c <=? 4 * v + up)
   else (4 * v - down <? 4 * c) && (4 * c <? 4 * v + up))%Z.

(** The integer with the fewest significant digits that is read back as
    [v], the nearest to [v] when there are two: multiples of [10^j] are
    tried for [j] going down. *)
Fixpoint shortest (j : nat) (v : Z) : Z :=
  (let p := 10 ^ Z.of_nat j in
   let lo := v / p * p in
   let hi := lo + p in
   let ok_lo := reads_back_as v lo in
   let ok_hi := reads_back_as v hi in
   if ok_lo && ok_hi then
     if v - lo <? hi - v then lo
     else if hi - v <? v - lo then hi
     else if Z.even (v / p) then lo else hi
   else if ok_lo then lo
   else if ok_hi then hi
   else match j with
        | O => v
        | S j' => shortest j' v
        end)%Z.

Fixpoint drop_zeros (s : jsstring) : jsstring :=
  match s with
  | c :: t => if c =? 48 then drop_zeros t else s
  | [] => []
  end.

(** The digits of [c > 0] as the engine writes them: in full up to 21
    digits, and from there on as [d.ddde+n]. *)
Definition write (c : Z) : jsstring :=
  let digits := JS.Number_toString c in
  let n := List.length digits in
  if (n <=? 21)%nat then digits
  else
    match rev (drop_zeros (rev digits)) with
    | [] => []
    | [d] => [d] ++ lit "e+" ++ JS.Number_toString (Z.of_nat n - 1)
    | d :: more => [d] ++ lit "." ++ more ++ lit "e+" ++ JS.Number_toString (Z.of_nat n - 1)
    end.

(** [Number::toString] on the number stored for the integer [z]. *)
Definition Number_toString (z : Z) : jsstring :=
  if (Z.abs z <? 2 ^ 53)%Z then JS.Number_toString z
  else
    (if (z <? 0)%Z then lit "-" else [])
    ++ match nearest_double (Z.abs z) with
       | None => lit "Infinity"
       | Some v => write (shortest (List.length (JS.Number_toString v)) v)
       end.

(** A string the program builds: a [RangeError] when it would be longer
    than the engine allows. *)
Definition alloc (s : jsstring) : completion jsstring :=
  if (MAX_STRING_LENGTH <? Z.of_nat (List.length s))%Z then Throw RangeError
  else Normal s.

(** [" ".repeat(count)] *)
Definition repeat_space (count : Z) : option jsstring :=
  if ((count <? 0) || (MAX_STRING_LENGTH <? count))%Z then None
  else Some (repeat SPACE (Z.to_nat count)).

Definition lineOf (indent finalName : jsstring) (id : Z) : jsstring :=
  indent ++ finalName ++ lit " = " ++ Number_toString id ++ lit ",".

Fixpoint whileUsed (fuel : nat) (usedNames : gset jsstring)
    (sanitized finalName : jsstring) (suffix : Z) : completion jsstring :=
  match fuel with
  | O => Diverge
  | S fuel' =>
      if has usedNames finalName
      then next ← alloc (suffixed sanitized suffix);
           whileUsed fuel' usedNames sanitized next (suffix + 1)
      else Normal finalName
  end.

Definition forBody (indent : jsstring) (st : loopState) (item : option ItemData)
  : completion loopState :=
  match item with
  | None => Normal st
  | Some item =>
      sanitized ← alloc (sanitize (name item));
      if has INVALID_NAMES sanitized then Normal st
      else
        sanitized ← alloc (keywordGuard sanitized);
        finalName ← whileUsed (S (size (usedNames st))) (usedNames st)
                              sanitized sanitized 2;
        line ← alloc (lineOf indent finalName (item_id item));
        Normal {| lines := array_set (lines st) (lineIdx st) line;
                  lineIdx := S (lineIdx st);
                  usedNames := {[finalName]} ∪ usedNames st |}
  end.

Fixpoint forItems (indent : jsstring) (items : list (option ItemData)) (st : loopState)
  : completion loopState :=
  match items with
  | [] => Normal st
  | item :: rest => st' ← forBody indent st item; forItems indent rest st'
  end.

Definition buildEnum (this : t) (tabSize : option Z) : completion jsstring :=
  let tabSize := default 4%Z tabSize in
  match itemsData this with
  | None => Throw NotLoaded
  | Some data =>
      let items := items data in
      let len := List.length items in
      match repeat_space tabSize with
      | None => Throw RangeError
      | Some indent =>
          st ← forItems indent items (init len);
          let lines := array_set_length (lines st) (lineIdx st) in
          joined ← alloc (join [LF] lines);
          alloc (lit "enum eItems {" ++ [LF] ++ joined ++ [LF] ++ lit "};" ++ [LF])
      end
  end.

End V8.

(** ** The loop seen as a list of (identifier, id) pairs

    The same [for] loop with the rendering of the line left out: what each
    iteration decides is the identifier it assigns, if any.  Lemma
    [forItems_resolved] ties the two together. *)

(** The name an item brings to the [while] loop; [None] for a name the
    [INVALID_NAMES] test skips. *)
Definition candidateOf (it : ItemData) : option jsstring :=
  let sanitized := sanitize (name it) in
  if has INVALID_NAMES sanitized then None
  else Some (keywordGuard sanitized).

Fixpoint resolved (items : list (option ItemData)) (used : gset jsstring)
  : list (jsstring * Z) :=
  match items with
  | [] => []
  | None :: rest => resolved rest used
  | Some it :: rest =>
      match candidateOf it with
      | None => resolved rest used
      | Some sanitized =>
          match finalNameOf used sanitized with
          | None => []
          | Some finalName =>
              (finalName, item_id it) :: resolved rest ({[finalName]} ∪ used)
          end
      end
  end.

Definition emitted (items : list (option ItemData)) : list (jsstring * Z) :=
  resolved items ∅.

(** The names assigned to a prefix of the catalog: the value of [usedNames]
    when the next item is reached. *)
Definition usedAfter (items : list (option ItemData)) : gset jsstring :=
  list_to_set (map fst (emitted items)).

(** The records that get a line. *)
Definition survives (item : option ItemData) : bool :=
  match item with
  | Some it => negb (has INVALID_NAMES (sanitize (name it)))
  | None => false
  end.

Definition survivors (items : list (option ItemData)) : list ItemData :=
  omap (fun item => if survives item then item else None) items.

(** The identifier a rendered line starts with, read back from the text:
    the code units of [[A-Za-z0-9_]] that follow the leading spaces. *)
Fixpoint skipSpaces (s : jsstring) : jsstring :=
  match s with
  | c :: t => if c =? SPACE then skipSpaces t else s
  | [] => []
  end.

Fixpoint wordPrefix (s : jsstring) : jsstring :=
  match s with
  | c :: t => if is_word c then c :: wordPrefix t else []
  | [] => []
  end.

Definition identifierOfLine (line : jsstring) : jsstring :=
  wordPrefix (skipSpaces line).

(** ** The sanitizer as the specification words it *)

Module Spec.

(** The maximal runs of a string: consecutive code units that are all
    inside, or all outside, the class [[A-Za-z0-9_]], each with its side. *)
Fixpoint runs (s : jsstring) : list (bool * jsstring) :=
  match s with
  | [] => []
  | c :: t =>
      match runs t with
      | (inside, run) :: more =>
          if Bool.eqb (is_word c) inside
          then (inside, c :: run) :: more
          else (is_word c, [c]) :: (inside, run) :: more
      | [] => [(is_word c, [c])]
      end
  end.

(** Step 2: every maximal run outside the class becomes one underscore. *)
Definition collapseInvalidRuns (s : jsstring) : jsstring :=
  concat (map (fun r : bool * jsstring => if r.1 then r.2 else [UNDERSCORE]) (runs s)).

Definition is_digit (c : codeunit) : bool := (48 <=? c) && (c <=? 57).

(** Step 4: a leading ASCII digit gets an underscore in front. *)
Definition guardLeadingDigit (s : jsstring) : jsstring :=
  match s with
  | c :: _ => if is_digit c then UNDERSCORE :: s else s
  | [] => s
  end.

(** Steps 1 to 4. *)
Definition sanitizer (rawName : jsstring) : jsstring :=
  guardLeadingDigit (toUpperCase (collapseInvalidRuns (trim rawName))).

(** Lines joined with a separator between each two of them. *)
Fixpoint joined (sep : jsstring) (ls : list jsstring) : jsstring :=
  match ls with
  | [] => []
  | [l] => l
  | l :: rest => l ++ sep ++ joined sep rest
  end.

End Spec.

(** ** Shapes of names *)

(** An upper-case letter, a digit or an underscore: the code units of an
    identifier written in upper case. *)
Definition is_identifier_unit (c : codeunit) : bool :=
  ((65 <=? c) && (c <=? 90)) || ((48 <=? c) && (c <=? 57)) || (c =? 95).

(** ** Sample data *)

(** A record of the data file with an ASCII name. *)
Definition item (id : Z) (n : string) : option ItemData :=
  Some {| item_id := id; name := lit n |}.

(** The object once a file listing [l] has been loaded. *)
Definition catalog (l : list (option ItemData)) : t :=
  {| itemsData :=
       Some {| version := 1; item_count := Z.of_nat (List.length l); items := l |} |}.

(** A text given line by line, each line ended by a line feed. *)
Definition text (ls : list string) : jsstring :=
  concat (map (fun l => lit l ++ [LF]) ls).

(** * Properties *)

Lemma has_true set x : has set x = true <-> x ∈ set.
Proof. unfold has. apply bool_decide_eq_true. Qed.

Lemma has_false set x : has set x = false <-> x ∉ set.
Proof. unfold has. apply bool_decide_eq_false. Qed.

Lemma bind_Normal {A B} (a : A) (k : A -> completion B) : (Normal a ≫= k) = k a.
Proof. reflexivity. Qed.

(** Membership tests are reasoned about through the two lemmas above and
    are not unfolded. *)
#[global] Opaque has.

(** [Some a = Some b] to [a = b], leaving [a] and [b] as they are. *)
Tactic Notation "intros_some" ident(H) :=
  intros H; apply (inj Some) in H.

Tactic Notation "case_has" "as" ident(H) :=
  match goal with
  | |- context [has ?set ?x] =>
      destruct (has set x) eqn:H;
      [apply has_true in H | apply has_false in H]
  end.

(** ** Code units and strings *)

Lemma is_word_spec c :
  is_word c = true <->
  65 <= c <= 90 \/ 97 <= c <= 122 \/ 48 <= c <= 57 \/ c = 95.
Proof.
  unfold is_word.
  rewrite !orb_true_iff, !andb_true_iff, !N.leb_le, N.eqb_eq. lia.
Qed.

Lemma is_white_space_spec c :
  is_white_space c = true <->
  9 <= c <= 13 \/ c = 32 \/ c = 160 \/ c = 5760 \/ 8192 <= c <= 8202 \/
  c = 8232 \/ c = 8233 \/ c = 8239 \/ c = 8287 \/ c = 12288 \/ c = 65279.
Proof.
  unfold is_white_space.
  rewrite !orb_true_iff, !andb_true_iff, !N.leb_le, !N.eqb_eq. lia.
Qed.

Lemma upper_unit_spec c :
  upper_unit c = if (97 <=? c) && (c <=? 122) then c - 32 else c.
Proof. reflexivity. Qed.

Lemma lit_app a b : lit (a ++ b)%string = lit a ++ lit b.
Proof.
  unfold lit. induction a as [|c a IH]; simpl; [reflexivity|].
  f_equal. exact IH.
Qed.

Lemma lit_inj a b : lit a = lit b -> a = b.
Proof.
  unfold lit. revert b.
  induction a as [|c a IH]; intros [|d b]; simpl; intros H; try discriminate.
  - reflexivity.
  - injection H as Hc Hr. f_equal; [|auto].
    rewrite <- (ascii_N_embedding c), <- (ascii_N_embedding d). now f_equal.
Qed.

Lemma Number_toString_inj x y : Number_toString x = Number_toString y -> x = y.
Proof.
  unfold Number_toString. intros H%lit_inj.
  apply DecimalZ.to_int_inj.
  assert (E : Some (Z.to_int x) = Some (Z.to_int y)).
  { rewrite <- !NilEmpty.isi. now f_equal. }
  now injection E.
Qed.

Lemma is_word_upper c : is_word c = true -> is_word (upper_unit c) = true.
Proof.
  rewrite !is_word_spec, upper_unit_spec.
  destruct ((97 <=? c) && (c <=? 122)) eqn:E; [|tauto].
  apply andb_true_iff in E. rewrite !N.leb_le in E. lia.
Qed.

Lemma is_word_not_white c : is_word c = true -> is_white_space c = false.
Proof.
  intros H. apply not_true_is_false. revert H.
  rewrite is_word_spec, is_white_space_spec. lia.
Qed.

Lemma replace_scan_word rep matched s :
  Forall (fun c => is_word c = true) rep ->
  Forall (fun c => is_word c = true) (replace_scan SANITIZE_REGEX rep matched s).
Proof.
  intros Hrep. revert matched.
  induction s as [|c t IH]; intros matched; simpl; [constructor|].
  destruct (is_word c) eqn:Hc; simpl.
  - constructor; [exact Hc | apply IH].
  - destruct matched; [apply IH|].
    apply Forall_app. split; [exact Hrep | apply IH].
Qed.

Lemma replace_SANITIZE_REGEX_word s :
  Forall (fun c => is_word c = true) (replace s SANITIZE_REGEX (lit "_")).
Proof. apply replace_scan_word. repeat constructor. Qed.

(** Any rendering of [toUpperCase] that agrees with the ASCII one on
    strings of the class gives the same sanitised text: the method's
    behaviour elsewhere does not reach the program. *)
Lemma toUpperCase_only_on_words (upper : jsstring -> jsstring) s :
  (forall w, Forall (fun c => is_word c = true) w -> upper w = toUpperCase w) ->
  upper (replace s SANITIZE_REGEX (lit "_")) = toUpperCase (replace s SANITIZE_REGEX (lit "_")).
Proof. intros H. apply H, replace_SANITIZE_REGEX_word. Qed.

Lemma toUpperCase_word s :
  Forall (fun c => is_word c = true) s ->
  Forall (fun c => is_word c = true) (toUpperCase s).
Proof.
  unfold toUpperCase. induction 1; simpl; constructor; auto using is_word_upper.
Qed.

(** ** Trimming *)

Lemma trimStart_white l s :
  Forall (fun c => is_white_space c = true) l -> trimStart (l ++ s) = trimStart s.
Proof. induction 1 as [|c l Hc _ IH]; simpl; [reflexivity|]. now rewrite Hc. Qed.

Lemma trimStart_keep c s : is_white_space c = false -> trimStart (c :: s) = c :: s.
Proof. intros H. simpl. now rewrite H. Qed.

Lemma trimEnd_white s r :
  Forall (fun c => is_white_space c = true) r -> trimEnd (s ++ r) = trimEnd s.
Proof.
  intros H. unfold trimEnd. rewrite rev_app_distr, trimStart_white; [reflexivity|].
  now apply Forall_rev.
Qed.

Lemma trimEnd_keep s c : is_white_space c = false -> trimEnd (s ++ [c]) = s ++ [c].
Proof.
  intros H. unfold trimEnd. rewrite rev_app_distr. simpl. rewrite H.
  simpl. now rewrite rev_involutive.
Qed.

(** A text that neither starts nor ends with white space is what [trim]
    leaves of it, whatever white space surrounds it. *)
Lemma trim_surrounded l core r a b :
  Forall (fun c => is_white_space c = true) l ->
  Forall (fun c => is_white_space c = true) r ->
  head core = Some a -> is_white_space a = false ->
  last core = Some b -> is_white_space b = false ->
  trim (l ++ core ++ r) = core.
Proof.
  intros Hl Hr Ha Hwa Hb Hwb. unfold trim.
  rewrite trimStart_white by exact Hl.
  destruct core as [|a' core']; [discriminate|].
  injection Ha as ->.
  rewrite <- app_comm_cons, trimStart_keep by exact Hwa.
  rewrite app_comm_cons, trimEnd_white by exact Hr.
  destruct (exists_last (l:=a :: core')) as (front & b' & E); [discriminate|].
  rewrite E in Hb |- *. rewrite last_snoc in Hb. injection Hb as ->.
  now apply trimEnd_keep.
Qed.

(** ** Maximal runs and the replacement scan *)

Lemma runs_concat s : concat (map snd (Spec.runs s)) = s.
Proof.
  induction s as [|c t IH]; simpl; [reflexivity|].
  destruct (Spec.runs t) as [|[inside run] more]; simpl in *.
  - now subst t.
  - destruct (Bool.eqb (is_word c) inside); simpl; now rewrite <- IH.
Qed.

(** Every run is non-empty and lies on one side of the class. *)
Lemma runs_uniform s :
  Forall (fun r : bool * jsstring =>
            r.2 <> [] /\ Forall (fun c => is_word c = r.1) r.2) (Spec.runs s).
Proof.
  induction s as [|c t IH]; simpl; [constructor|].
  destruct (Spec.runs t) as [|[inside run] more]; simpl in *.
  - repeat constructor. discriminate.
  - destruct (Bool.eqb (is_word c) inside) eqn:E.
    + apply Bool.eqb_prop in E. inversion IH as [|? ? [_ Hrun] Hmore]; subst.
      constructor; [|exact Hmore]. simpl in *. split; [discriminate|].
      constructor; [reflexivity|exact Hrun].
    + constructor; [|exact IH]. simpl. split; [discriminate|]. now constructor.
Qed.

(** Runs are maximal: two neighbours are never on the same side. *)
Lemma runs_maximal s i r1 r2 :
  Spec.runs s !! i = Some r1 -> Spec.runs s !! S i = Some r2 -> r1.1 <> r2.1.
Proof.
  revert i r1 r2. induction s as [|c t IH]; intros i r1 r2; simpl; [discriminate|].
  destruct (Spec.runs t) as [|[inside run] more] eqn:Ht.
  - destruct i; discriminate.
  - destruct (Bool.eqb (is_word c) inside) eqn:E.
    + destruct i as [|i]; simpl.
      * intros [= <-] H2. simpl. apply (IH 0%nat (inside, run) r2); [reflexivity|exact H2].
      * intros H1 H2. apply (IH (S i) r1 r2); [exact H1|exact H2].
    + destruct i as [|i]; simpl.
      * intros [= <-] [= <-]. simpl. intros Heq.
        rewrite Heq, Bool.eqb_reflx in E. discriminate.
      * intros H1 H2. apply (IH i r1 r2); [exact H1|exact H2].
Qed.

Lemma replace_scan_runs matched s :
  replace_scan SANITIZE_REGEX [UNDERSCORE] matched s =
  match Spec.runs s with
  | (false, _) :: more =>
      (if matched then [] else [UNDERSCORE])
      ++ concat (map (fun r : bool * jsstring => if r.1 then r.2 else [UNDERSCORE]) more)
  | rs => concat (map (fun r : bool * jsstring => if r.1 then r.2 else [UNDERSCORE]) rs)
  end.
Proof.
  revert matched. induction s as [|c t IH]; intros matched; simpl; [reflexivity|].
  destruct (is_word c) eqn:Hc; simpl.
  - rewrite (IH false).
    destruct (Spec.runs t) as [|[[] run] more]; simpl; reflexivity.
  - rewrite !(IH true).
    destruct (Spec.runs t) as [|[[] run] more]; simpl; destruct matched; reflexivity.
Qed.

Lemma replace_SANITIZE_REGEX_runs s :
  replace s SANITIZE_REGEX (lit "_") = Spec.collapseInvalidRuns s.
Proof.
  unfold replace, Spec.collapseInvalidRuns.
  change (lit "_") with [UNDERSCORE]. rewrite replace_scan_runs.
  destruct (Spec.runs s) as [|[[] run] more]; reflexivity.
Qed.

Lemma replace_scan_adjacent matched a x y b :
  is_word x = false -> is_word y = false ->
  replace_scan SANITIZE_REGEX [UNDERSCORE] matched (a ++ x :: y :: b) =
  replace_scan SANITIZE_REGEX [UNDERSCORE] matched (a ++ x :: b).
Proof.
  intros Hx Hy. revert matched.
  induction a as [|c a IH]; intros matched; simpl.
  - rewrite Hx, Hy. simpl. destruct matched; reflexivity.
  - destruct (is_word c); simpl; [now rewrite IH|].
    destruct matched; now rewrite IH.
Qed.

(** ** The sanitised name *)

Lemma sanitize_sanitizer rawName : sanitize rawName = Spec.sanitizer rawName.
Proof.
  unfold sanitize, Spec.sanitizer. rewrite replace_SANITIZE_REGEX_runs.
  destruct (toUpperCase (Spec.collapseInvalidRuns (trim rawName))); reflexivity.
Qed.

Lemma sanitize_word rawName : Forall (fun c => is_word c = true) (sanitize rawName).
Proof.
  unfold sanitize.
  pose proof (toUpperCase_word _ (replace_SANITIZE_REGEX_word (trim rawName))) as H.
  destruct (_ && _); [|exact H].
  constructor; [reflexivity|exact H].
Qed.

Lemma sanitize_head rawName c :
  head (sanitize rawName) = Some c -> Spec.is_digit c = false.
Proof.
  rewrite sanitize_sanitizer. unfold Spec.sanitizer, Spec.guardLeadingDigit.
  destruct (toUpperCase _) as [|d u]; [discriminate|].
  destruct (Spec.is_digit d) eqn:Hd; simpl; intros [= <-]; [reflexivity|exact Hd].
Qed.

(** The sentinel ["0"] starts with a digit, so no name sanitises to it. *)
Lemma sanitize_not_zero rawName : sanitize rawName <> lit "0".
Proof.
  intros H. pose proof (sanitize_head rawName 48) as Hd.
  rewrite H in Hd. specialize (Hd eq_refl). discriminate.
Qed.

(** ** The [while] loop *)

Lemma suffixed_length sanitized k :
  (List.length sanitized < List.length (suffixed sanitized k))%nat.
Proof. unfold suffixed. rewrite !length_app. simpl. lia. Qed.

Lemma suffixed_ne sanitized k : suffixed sanitized k <> sanitized.
Proof.
  intros H. pose proof (suffixed_length sanitized k) as L. rewrite H in L. lia.
Qed.

Lemma suffixed_inj sanitized : Inj (=) (=) (suffixed sanitized).
Proof.
  intros x y H. unfold suffixed in H.
  apply app_inv_head in H. apply app_inv_head in H.
  now apply Number_toString_inj.
Qed.

(** An exhausted loop has found every name it tried in the set. *)
Lemma whileUsed_None fuel used sanitized finalName suffix :
  whileUsed fuel used sanitized finalName suffix = None ->
  (fuel <> 0%nat -> finalName ∈ used) /\
  forall i, (suffix <= i < suffix + Z.of_nat fuel - 1)%Z -> suffixed sanitized i ∈ used.
Proof.
  revert finalName suffix.
  induction fuel as [|fuel IH]; intros finalName suffix; simpl.
  - intros _. split; [congruence|]. intros i Hi. lia.
  - case_has as Hin; [|discriminate].
    intros [Hnext Hrest]%IH. split; [intros _; exact Hin|].
    intros i Hi. destruct (decide (i = suffix)) as [->|Hne].
    + apply Hnext. intros ->. lia.
    + apply Hrest. lia.
Qed.

(** The name the loop leaves with is free, and every name tried before it
    was taken. *)
Lemma whileUsed_Some fuel used sanitized finalName suffix n :
  whileUsed fuel used sanitized finalName suffix = Some n ->
  (n ∉ used) /\
  (n = finalName \/
   finalName ∈ used /\
   exists j, (suffix <= j)%Z /\ n = suffixed sanitized j /\
             forall i, (suffix <= i < j)%Z -> suffixed sanitized i ∈ used).
Proof.
  revert finalName suffix.
  induction fuel as [|fuel IH]; intros finalName suffix; simpl; [discriminate|].
  case_has as Hin.
  - intros [Hfree [->|(Hnext & j & Hj & -> & Hbelow)]]%IH; (split; [exact Hfree|]).
    + right. split; [exact Hin|]. exists suffix. split; [lia|]. split; [reflexivity|].
      intros i Hi. lia.
    + right. split; [exact Hin|]. exists j. split; [lia|]. split; [reflexivity|].
      intros i Hi. destruct (decide (i = suffix)) as [->|Hne]; [exact Hnext|].
      apply Hbelow. lia.
  - intros [= <-]. split; [exact Hin|]. now left.
Qed.

(** A loop that has ended would end the same way on more fuel. *)
Lemma whileUsed_more_fuel fuel extra used sanitized finalName suffix n :
  whileUsed fuel used sanitized finalName suffix = Some n ->
  whileUsed (fuel + extra) used sanitized finalName suffix = Some n.
Proof.
  revert finalName suffix.
  induction fuel as [|fuel IH]; intros finalName suffix; simpl; [discriminate|].
  destruct (has used finalName); [apply IH|trivial].
Qed.

(** The fuel is enough: a set of [n] names cannot hold the [n + 1]
    different names the loop would have to find taken. *)
Lemma whileUsed_enough used sanitized :
  exists finalName, finalNameOf used sanitized = Some finalName.
Proof.
  unfold finalNameOf.
  destruct (whileUsed _ _ _ _ _) as [n|] eqn:E; [now exists n|].
  exfalso. apply whileUsed_None in E as [Hbare Hsuf].
  specialize (Hbare ltac:(discriminate)).
  set (tried := sanitized :: (suffixed sanitized <$> seqZ 2 (Z.of_nat (size used)))).
  assert (Hnd : NoDup tried).
  { apply NoDup_cons. split.
    - intros (k & Hk & _)%list_elem_of_fmap. symmetry in Hk.
      now apply suffixed_ne in Hk.
    - apply NoDup_fmap_2; [apply suffixed_inj|apply NoDup_seqZ]. }
  assert (Hsub : list_to_set (C:=gset jsstring) tried ⊆ used).
  { intros x [->|(k & -> & Hk)%list_elem_of_fmap]%elem_of_list_to_set%elem_of_cons;
      [exact Hbare|].
    apply Hsuf. apply elem_of_seqZ in Hk. lia. }
  apply subseteq_size in Hsub. rewrite size_list_to_set in Hsub by exact Hnd.
  unfold tried in Hsub. simpl in Hsub.
  rewrite length_fmap, length_seqZ in Hsub. lia.
Qed.

(** What the loop computes: the bare name when it is free, and otherwise
    the first free name among [_2], [_3], ... *)
Lemma finalNameOf_spec used sanitized finalName :
  finalNameOf used sanitized = Some finalName ->
  (finalName ∉ used) /\
  ((sanitized ∉ used) /\ finalName = sanitized \/
   (sanitized ∈ used) /\
   exists k, (2 <= k)%Z /\ finalName = suffixed sanitized k /\
             forall j, (2 <= j < k)%Z -> suffixed sanitized j ∈ used).
Proof.
  unfold finalNameOf.
  intros [Hfree [->|(Hin & k & Hk & -> & Hbelow)]]%whileUsed_Some.
  - split; [exact Hfree|]. left. now split.
  - split; [exact Hfree|]. right. split; [exact Hin|]. now exists k.
Qed.

(** ** The loop and its list of pairs *)

Lemma forItems_app indent pre post st :
  forItems indent (pre ++ post) st =
  (st' ← forItems indent pre st; forItems indent post st').
Proof.
  revert st. induction pre as [|item pre IH]; intros st; simpl; [reflexivity|].
  destruct (forBody indent st item) as [st'| |]; simpl; [apply IH|reflexivity..].
Qed.

(** ** The array of lines *)

Lemma array_set_fill {A} (ls : list A) k x :
  array_set ((Some <$> ls) ++ replicate (S k) None) (List.length ls) x
  = (Some <$> (ls ++ [x])) ++ replicate k None.
Proof.
  unfold array_set. rewrite decide_True.
  - rewrite insert_app_r_alt by (rewrite length_fmap; lia).
    rewrite length_fmap, Nat.sub_diag, fmap_app, <- app_assoc. reflexivity.
  - rewrite length_app, length_fmap, length_replicate. lia.
Qed.

Lemma array_set_length_filled {A} (ls : list A) k :
  array_set_length ((Some <$> ls) ++ replicate k None) (List.length ls)
  = Some <$> ls.
Proof.
  unfold array_set_length.
  rewrite take_app_length' by (now rewrite length_fmap).
  rewrite length_app, length_fmap.
  replace (List.length ls - _)%nat with 0%nat by lia.
  apply app_nil_r.
Qed.

Lemma join_Some sep ls : join sep (Some <$> ls) = Spec.joined sep ls.
Proof.
  induction ls as [|l [|l' rest] IH]; [reflexivity..|].
  change (l ++ sep ++ join sep (Some <$> l' :: rest) = l ++ sep ++ Spec.joined sep (l' :: rest)).
  now rewrite IH.
Qed.

Lemma resolved_length items used :
  (List.length (resolved items used) <= List.length items)%nat.
Proof.
  revert used. induction items as [|[it|] rest IH]; intros used; simpl.
  - lia.
  - destruct (candidateOf it) as [c|]; [|specialize (IH used); lia].
    destruct (finalNameOf used c) as [n|]; simpl; [|lia].
    specialize (IH ({[n]} ∪ used)). lia.
  - specialize (IH used). lia.
Qed.

(** The loop writes the lines of its pairs into the next free slots. *)
Lemma forItems_resolved indent items ls k used :
  (List.length items <= k)%nat ->
  forItems indent items
    {| lines := (Some <$> ls) ++ replicate k None;
       lineIdx := List.length ls;
       usedNames := used |}
  = let new := map (fun e : jsstring * Z => lineOf indent e.1 e.2)
                   (resolved items used) in
    Normal {| lines := (Some <$> (ls ++ new)) ++ replicate (k - List.length new) None;
              lineIdx := List.length (ls ++ new);
              usedNames := list_to_set (map fst (resolved items used)) ∪ used |}.
Proof.
  revert ls k used.
  induction items as [|[it|] rest IH]; intros ls k used Hk; simpl in Hk |- *.
  - rewrite app_nil_r, Nat.sub_0_r. f_equal. f_equal. set_solver.
  - unfold candidateOf. case_has as Hinv; [apply IH; lia|].
    destruct (whileUsed_enough used (keywordGuard (sanitize (name it)))) as [n Hn].
    rewrite Hn. cbn [lines lineIdx usedNames].
    destruct k as [|k]; [lia|]. rewrite array_set_fill.
    replace (S (List.length ls))
      with (List.length (ls ++ [lineOf indent n (item_id it)]))
      by (rewrite length_app; simpl; lia).
    rewrite bind_Normal, IH by lia. cbn zeta. simpl map. simpl List.length.
    rewrite <- !app_assoc. simpl. f_equal. f_equal. set_solver.
  - apply IH. lia.
Qed.

Lemma forItems_init indent items :
  forItems indent items (init (List.length items))
  = let new := map (fun e : jsstring * Z => lineOf indent e.1 e.2) (emitted items) in
    Normal {| lines := (Some <$> new) ++ replicate (List.length items - List.length new) None;
              lineIdx := List.length new;
              usedNames := usedAfter items ∪ ∅ |}.
Proof. exact (forItems_resolved indent items [] _ ∅ (le_n _)). Qed.

Lemma resolved_app pre post used :
  resolved (pre ++ post) used =
  resolved pre used
  ++ resolved post (list_to_set (map fst (resolved pre used)) ∪ used).
Proof.
  revert used. induction pre as [|[it|] pre IH]; intros used; simpl.
  - f_equal. set_solver.
  - destruct (candidateOf it) as [c|]; [|apply IH].
    destruct (whileUsed_enough used c) as [n Hn]. rewrite Hn. simpl.
    rewrite IH. f_equal. f_equal. f_equal. set_solver.
  - apply IH.
Qed.

(** The identifiers handed out are new each time. *)
Lemma resolved_fresh items used :
  NoDup (map fst (resolved items used)) /\
  forall n, n ∈ map fst (resolved items used) -> n ∉ used.
Proof.
  revert used. induction items as [|[it|] rest IH]; intros used; simpl.
  - split; [constructor|]. intros n Hn. now apply not_elem_of_nil in Hn.
  - destruct (candidateOf it) as [c|]; [|apply IH].
    destruct (finalNameOf used c) as [n|] eqn:Hn; simpl.
    + apply finalNameOf_spec in Hn as [Hfree _].
      destruct (IH ({[n]} ∪ used)) as [Hnd Hnew]. split.
      * apply NoDup_cons. split; [|exact Hnd].
        intros Hin%Hnew. set_solver.
      * intros m [->|Hm%Hnew]%elem_of_cons; [exact Hfree|set_solver].
    + split; [constructor|]. intros n Hn'. now apply not_elem_of_nil in Hn'.
  - apply IH.
Qed.

(** One pair per surviving record, in the order of the catalog. *)
Lemma resolved_ids items used :
  map snd (resolved items used) = map item_id (survivors items).
Proof.
  revert used. induction items as [|[it|] rest IH]; intros used; simpl.
  - reflexivity.
  - unfold candidateOf, survivors. simpl.
    case_has as Hinv; simpl.
    + apply IH.
    +       destruct (whileUsed_enough used (keywordGuard (sanitize (name it)))) as [n Hn].
      rewrite Hn. simpl. f_equal. apply IH.
  - apply IH.
Qed.

(** ** The identifiers handed out *)

Lemma digits_word d :
  Forall (fun c => is_word c = true) (lit (NilEmpty.string_of_uint d)).
Proof. induction d; simpl; constructor; (reflexivity || assumption). Qed.

Lemma Number_toString_word z :
  (0 <= z)%Z -> Forall (fun c => is_word c = true) (Number_toString z).
Proof.
  intros Hz. unfold Number_toString.
  destruct z as [|p|p]; [repeat constructor|apply digits_word|lia].
Qed.

Lemma keywordGuard_word sanitized :
  Forall (fun c => is_word c = true) sanitized ->
  Forall (fun c => is_word c = true) (keywordGuard sanitized).
Proof.
  intros H. unfold keywordGuard. case_has as Hres; [|exact H].
  apply Forall_app. split; [exact H|repeat constructor].
Qed.

Lemma candidateOf_word it sanitized :
  candidateOf it = Some sanitized -> Forall (fun c => is_word c = true) sanitized.
Proof.
  unfold candidateOf. case_has as Hinv; [discriminate|]. intros_some E. subst sanitized.
  apply keywordGuard_word, sanitize_word.
Qed.

Lemma finalNameOf_word used sanitized finalName :
  Forall (fun c => is_word c = true) sanitized ->
  finalNameOf used sanitized = Some finalName ->
  Forall (fun c => is_word c = true) finalName.
Proof.
  intros Hw [_ [[_ ->]|(_ & k & Hk & -> & _)]]%finalNameOf_spec; [exact Hw|].
  unfold suffixed. rewrite !Forall_app. split; [exact Hw|]. split.
  - repeat constructor.
  - apply Number_toString_word. lia.
Qed.

Lemma resolved_word items used e :
  e ∈ resolved items used -> Forall (fun c => is_word c = true) e.1.
Proof.
  revert used. induction items as [|[it|] rest IH]; intros used; simpl.
  - intros H. now apply not_elem_of_nil in H.
  - destruct (candidateOf it) as [c|] eqn:Hc; [|apply IH].
    destruct (finalNameOf used c) as [n|] eqn:Hn.
    + intros [->|H]%elem_of_cons; [|exact (IH _ H)].
      simpl. eapply finalNameOf_word; [|exact Hn]. eapply candidateOf_word, Hc.
    + intros H. now apply not_elem_of_nil in H.
  - apply IH.
Qed.

Lemma elem_of_INVALID_NAMES x :
  x ∈ INVALID_NAMES <->
  x = lit "" \/ x = lit "0" \/ x = lit "NULL" \/ x = lit "NONE" \/ x = lit "N".
Proof.
  unfold INVALID_NAMES. rewrite elem_of_list_to_set. simpl.
  rewrite !elem_of_cons, elem_of_nil. tauto.
Qed.

Lemma INVALID_NAMES_no_underscore x : x ∈ INVALID_NAMES -> UNDERSCORE ∉ x.
Proof.
  rewrite elem_of_INVALID_NAMES.
  intros [-> | [-> | [-> | [-> | ->]]]] H; vm_compute in H;
    repeat (apply elem_of_cons in H as [H|H]; [discriminate|]);
    now apply not_elem_of_nil in H.
Qed.

Lemma candidateOf_valid it sanitized :
  candidateOf it = Some sanitized -> sanitized ∉ INVALID_NAMES.
Proof.
  unfold candidateOf, keywordGuard.
  case_has as Hinv; [discriminate|].
  case_has as Hres; intros_some E; subst sanitized; [|exact Hinv].
  intros H%INVALID_NAMES_no_underscore. apply H.
  apply elem_of_app. right. now left.
Qed.

Lemma finalNameOf_valid used sanitized finalName :
  sanitized ∉ INVALID_NAMES ->
  finalNameOf used sanitized = Some finalName -> finalName ∉ INVALID_NAMES.
Proof.
  intros Hv [_ [[_ ->]|(_ & k & _ & -> & _)]]%finalNameOf_spec; [exact Hv|].
  intros H%INVALID_NAMES_no_underscore. apply H.
  unfold suffixed. apply elem_of_app. right. now left.
Qed.

Lemma resolved_valid items used e :
  e ∈ resolved items used -> e.1 ∉ INVALID_NAMES.
Proof.
  revert used. induction items as [|[it|] rest IH]; intros used; simpl.
  - intros H. now apply not_elem_of_nil in H.
  - destruct (candidateOf it) as [c|] eqn:Hc; [|apply IH].
    destruct (finalNameOf used c) as [n|] eqn:Hn.
    + intros [->|H]%elem_of_cons; [|exact (IH _ H)].
      simpl. eapply finalNameOf_valid; [|exact Hn]. eapply candidateOf_valid, Hc.
    + intros H. now apply not_elem_of_nil in H.
  - apply IH.
Qed.

(** ** Reading the identifier back from a line *)

Lemma skipSpaces_repeat k s : skipSpaces (repeat SPACE k ++ s) = skipSpaces s.
Proof. induction k as [|k IH]; simpl; [reflexivity|exact IH]. Qed.

Lemma wordPrefix_app n c s :
  Forall (fun c => is_word c = true) n -> is_word c = false ->
  wordPrefix (n ++ c :: s) = n.
Proof.
  intros Hn Hc. induction Hn as [|d n Hd _ IH]; simpl.
  - now rewrite Hc.
  - rewrite Hd. now f_equal.
Qed.

Lemma identifierOfLine_lineOf k n id :
  Forall (fun c => is_word c = true) n ->
  identifierOfLine (lineOf (repeat SPACE k) n id) = n.
Proof.
  intros Hn. unfold identifierOfLine, lineOf. rewrite skipSpaces_repeat.
  destruct Hn as [|c n Hc Hn]; [reflexivity|].
  change (lit " = ") with (SPACE :: lit "= ").
  rewrite <- !app_comm_cons. simpl.
  destruct (N.eqb_spec c SPACE) as [->|_]; [discriminate|].
  simpl. rewrite Hc. f_equal. now apply wordPrefix_app.
Qed.

(** ** The whole call *)

Lemma usedAfter_nil : usedAfter [] = ∅.
Proof. reflexivity. Qed.

(** With a catalog loaded, the call depends on the catalog through its
    list of pairs only. *)
Lemma buildEnum_loaded data tabSize :
  buildEnum {| itemsData := Some data |} tabSize =
  match repeat_space (default 4%Z tabSize) with
  | None => Throw RangeError
  | Some indent =>
      Normal (lit "enum eItems {" ++ [LF]
              ++ Spec.joined [LF]
                   (map (fun e : jsstring * Z => lineOf indent e.1 e.2)
                        (emitted (items data)))
              ++ [LF] ++ lit "};" ++ [LF])
  end.
Proof.
  unfold buildEnum. cbn [itemsData]. cbn zeta.
  destruct (repeat_space (default 4%Z tabSize)) as [indent|]; [|reflexivity].
  rewrite forItems_init. cbn zeta. rewrite bind_Normal.
  cbn [lines lineIdx]. rewrite array_set_length_filled, join_Some. reflexivity.
Qed.

Lemma buildEnum_emitted data tabSize :
  (0 <= default 4 tabSize)%Z ->
  buildEnum {| itemsData := Some data |} tabSize =
  Normal (lit "enum eItems {" ++ [LF]
          ++ Spec.joined [LF]
               (map (fun e : jsstring * Z =>
                       lineOf (repeat SPACE (Z.to_nat (default 4%Z tabSize))) e.1 e.2)
                    (emitted (items data)))
          ++ [LF] ++ lit "};" ++ [LF]).
Proof.
  intros Hw. rewrite buildEnum_loaded. unfold repeat_space.
  destruct (Z.ltb_spec (default 4%Z tabSize) 0) as [Hneg|_]; [lia|reflexivity].
Qed.

(** A record enters the list of pairs with the name the [while] loop gives
    its candidate against the names of the records before it. *)
Lemma emitted_step pre it post sanitized :
  candidateOf it = Some sanitized ->
  exists finalName,
    finalNameOf (usedAfter pre) sanitized = Some finalName /\
    emitted (pre ++ Some it :: post) =
    emitted pre ++ (finalName, item_id it)
                :: resolved post ({[finalName]} ∪ usedAfter pre).
Proof.
  intros Hc. unfold emitted at 1. rewrite resolved_app. simpl. rewrite Hc.
  fold (emitted pre). fold (usedAfter pre). rewrite (right_id_L ∅ (∪)).
  destruct (whileUsed_enough (usedAfter pre) sanitized) as [n Hn].
  exists n. rewrite Hn. split; reflexivity.
Qed.

(** A record the [INVALID_NAMES] test skips leaves no trace in the loop. *)
Lemma forItems_skip indent pre it post st :
  sanitize (name it) ∈ INVALID_NAMES ->
  forItems indent (pre ++ Some it :: post) st = forItems indent (pre ++ post) st.
Proof.
  intros Hinv. rewrite !forItems_app.
  destruct (forItems indent pre st) as [st'| |]; simpl; [|reflexivity..].
  apply has_true in Hinv. now rewrite Hinv.
Qed.

Lemma resolved_skip pre it post used :
  sanitize (name it) ∈ INVALID_NAMES ->
  resolved (pre ++ Some it :: post) used = resolved (pre ++ post) used.
Proof.
  intros Hinv. rewrite !resolved_app. simpl. unfold candidateOf.
  apply has_true in Hinv. now rewrite Hinv.
Qed.

(** ** Names spelled [for] *)

Lemma replace_scan_words rep matched s :
  Forall (fun c => is_word c = true) s ->
  replace_scan SANITIZE_REGEX rep matched s = s.
Proof.
  intros H. revert matched.
  induction H as [|c s Hc _ IH]; intros matched; simpl; [reflexivity|].
  rewrite Hc. simpl. now rewrite IH.
Qed.

Lemma upper_unit_letter c u :
  upper_unit c = u -> 65 <= u <= 90 ->
  is_word c = true /\ is_white_space c = false.
Proof.
  rewrite upper_unit_spec. intros Hu Hr.
  assert (Hw : is_word c = true).
  { apply is_word_spec.
    destruct ((97 <=? c) && (c <=? 122)) eqn:E.
    - apply andb_true_iff in E. rewrite !N.leb_le in E. lia.
    - lia. }
  split; [exact Hw|now apply is_word_not_white].
Qed.

Lemma FOR_reserved : has RESERVED_KEYWORDS (lit "FOR") = true.
Proof. vm_compute. reflexivity. Qed.

Lemma sanitize_for l core r :
  Forall (fun c => is_white_space c = true) l ->
  Forall (fun c => is_white_space c = true) r ->
  toUpperCase core = lit "FOR" ->
  sanitize (l ++ core ++ r) = lit "FOR".
Proof.
  intros Hl Hr Hup.
  destruct core as [|a [|b [|c [|d core]]]]; try discriminate.
  pose proof Hup as Hunits. unfold toUpperCase in Hunits. cbn [map] in Hunits.
  change (lit "FOR") with [70; 79; 82] in Hunits.
  injection Hunits as Ha Hb Hc.
  apply upper_unit_letter in Ha as [Hwa Hsa]; [|lia].
  apply upper_unit_letter in Hb as [Hwb _]; [|lia].
  apply upper_unit_letter in Hc as [Hwc Hsc]; [|lia].
  unfold sanitize.
  rewrite (trim_surrounded l [a; b; c] r a c) by (assumption || reflexivity).
  unfold replace.
  rewrite replace_scan_words by (repeat constructor; assumption).
  rewrite Hup. reflexivity.
Qed.

(** A record whose candidate an earlier record also had finds it taken. *)
Lemma earlier_candidate_used pre it' sanitized :
  Some it' ∈ pre -> candidateOf it' = Some sanitized -> sanitized ∈ usedAfter pre.
Proof.
  intros (a & b & ->)%list_elem_of_split Hc.
  destruct (emitted_step a it' b sanitized Hc) as (n & Hn & E).
  unfold usedAfter at 1. rewrite E, map_app, list_to_set_app_L. simpl.
  apply finalNameOf_spec in Hn as [_ [[_ ->]|[Hin _]]].
  - set_solver.
  - apply elem_of_union. left. exact Hin.
Qed.

(** ** The engine's limits *)










(** * The claims *)

(** C1.  The end-to-end example.  On the catalog
    [{1, "Health Potion"}, {2, "0"}, {3, "class"}, {4, "Health-Potion"}]
    with the default indent, [buildEnum] returns five lines between the
    braces' lines, not the four of the expected text: the name ["0"] starts
    with a digit, so it reaches the [INVALID_NAMES] test as ["_0"], which is
    not in the set, and the record with id 2 gets the line [_0 = 2,]. *)
Theorem buildEnum_example :
  let this := catalog [item 1 "Health Potion"; item 2 "0"; item 3 "class";
                       item 4 "Health-Potion"] in
  buildEnum this None =
    Normal (text ["enum eItems {";
                  "    HEALTH_POTION = 1,";
                  "    _0 = 2,";
                  "    CLASS_ = 3,";
                  "    HEALTH_POTION_2 = 4,";
                  "};"]%string)
  /\ buildEnum this None <>
    Normal (text ["enum eItems {";
                  "    HEALTH_POTION = 1,";
                  "    CLASS_ = 3,";
                  "    HEALTH_POTION_2 = 4,";
                  "};"]%string)
  /\ sanitize (lit "0") = lit "_0"
  /\ has INVALID_NAMES (lit "_0") = false
  /\ has INVALID_NAMES (lit "0") = true.
Proof.
  intros this.
  assert (E : buildEnum this None =
              Normal (text ["enum eItems {"; "    HEALTH_POTION = 1,"; "    _0 = 2,";
                            "    CLASS_ = 3,"; "    HEALTH_POTION_2 = 4,"; "};"]%string)).
  { vm_compute. reflexivity. }
  split; [exact E|]. split.
  - rewrite E. intros H.
    apply (f_equal (fun c => match c with
                             | Normal t => List.length t
                             | _ => 0%nat
                             end)) in H.
    vm_compute in H. discriminate.
  - repeat split; vm_compute; reflexivity.
Qed.

(** C2, amended.  A record whose name sanitises to a member of
    [INVALID_NAMES] is dropped: the call returns what it returns on the
    catalog without the record, no line carries the record's sanitised name
    as identifier, and the ids printed are those of the surviving records
    (so its id shows only where a surviving record has the same id). *)
Theorem sentinel_record_dropped pre it post :
  sanitize (name it) ∈ INVALID_NAMES ->
  (forall v n tabSize,
      buildEnum {| itemsData := Some {| version := v; item_count := n;
                                        items := pre ++ Some it :: post |} |} tabSize
      = buildEnum {| itemsData := Some {| version := v; item_count := n;
                                          items := pre ++ post |} |} tabSize)
  /\ emitted (pre ++ Some it :: post) = emitted (pre ++ post)
  /\ (forall e, e ∈ emitted (pre ++ Some it :: post) -> e.1 <> sanitize (name it))
  /\ map snd (emitted (pre ++ Some it :: post)) = map item_id (survivors (pre ++ post)).
Proof.
  intros Hinv. split; [|split; [|split]].
  - intros v n tabSize. rewrite !buildEnum_loaded. cbn [items].
    unfold emitted. now rewrite resolved_skip.
  - now apply resolved_skip.
  - intros e He%resolved_valid Heq. apply He. now rewrite Heq.
  - unfold emitted. rewrite resolved_skip by exact Hinv. apply resolved_ids.
Qed.

Lemma sentinel_record_dropped_witness :
  emitted [item 1 "Dirt"; item 2 " none "; item 3 "Rock"]
  = emitted [item 1 "Dirt"; item 3 "Rock"].
Proof.
  destruct (sentinel_record_dropped [item 1 "Dirt"]
              {| item_id := 2; name := lit " none " |} [item 3 "Rock"])
    as (_ & E & _).
  - apply has_true. vm_compute. reflexivity.
  - exact E.
Defined.

(** C2 as stated fails where a surviving record shares the id of a dropped
    one: the record [{7, "null"}] is dropped, and the line of [{7, "Sword"}]
    prints 7. *)
Lemma dropped_id_still_printed :
  let dropped := {| item_id := 7; name := lit "null" |} in
  let entries := [Some dropped; item 7 "Sword"] in
  sanitize (name dropped) = lit "NULL"
  /\ has INVALID_NAMES (lit "NULL") = true
  /\ buildEnum (catalog entries) None
     = Normal (text ["enum eItems {"; "    SWORD = 7,"; "};"]%string)
  /\ ~ (forall e, e ∈ emitted entries ->
                  e.1 <> sanitize (name dropped) /\ e.2 <> item_id dropped).
Proof.
  intros dropped entries.
  split; [reflexivity|]. split; [vm_compute; reflexivity|].
  split; [vm_compute; reflexivity|].
  intros H. destruct (H (lit "SWORD", 7%Z)) as [_ Hid].
  - replace (emitted entries) with [(lit "SWORD", 7%Z)] by (vm_compute; reflexivity).
    now left.
  - now apply Hid.
Qed.

(** C3.  Uniqueness.  For every catalog and indent width, the loop ends in
    a state whose array, cut to [lineIdx], holds the lines of the returned
    text, and the identifiers read back from those lines are pairwise
    distinct (they are the names the loop assigned, in order). *)
Theorem emitted_identifiers_distinct data w :
  (0 <= w)%Z ->
  exists st ls,
    forItems (repeat SPACE (Z.to_nat w)) (items data)
             (init (List.length (items data))) = Normal st
    /\ array_set_length (lines st) (lineIdx st) = Some <$> ls
    /\ buildEnum {| itemsData := Some data |} (Some w) =
       Normal (lit "enum eItems {" ++ [LF] ++ join [LF] (Some <$> ls) ++ [LF]
               ++ lit "};" ++ [LF])
    /\ map identifierOfLine ls = map fst (emitted (items data))
    /\ NoDup (map identifierOfLine ls).
Proof.
  intros Hw. eexists. eexists. split; [apply forItems_init|].
  cbn [lines lineIdx].
  split; [apply array_set_length_filled|].
  assert (Hid : map identifierOfLine
                  (map (fun e : jsstring * Z =>
                          lineOf (repeat SPACE (Z.to_nat w)) e.1 e.2)
                       (emitted (items data)))
                = map fst (emitted (items data))).
  { rewrite map_map. apply map_ext_in.
    intros e He%list_elem_of_In. apply identifierOfLine_lineOf.
    eapply resolved_word, He. }
  split; [|split].
  - rewrite (buildEnum_emitted data (Some w)) by exact Hw.
    rewrite join_Some. reflexivity.
  - exact Hid.
  - rewrite Hid. apply resolved_fresh.
Qed.

Lemma emitted_identifiers_distinct_witness :
  exists st ls,
    forItems (repeat SPACE 2) [item 1 "Potion!"; item 2 "Potion?"] (init 2) = Normal st
    /\ array_set_length (lines st) (lineIdx st) = Some <$> ls
    /\ NoDup (map identifierOfLine ls).
Proof.
  destruct (emitted_identifiers_distinct
              {| version := 1; item_count := 2;
                 items := [item 1 "Potion!"; item 2 "Potion?"] |} 2 ltac:(lia))
    as (st & ls & Hst & Hls & _ & _ & Hnd).
  exists st, ls. split; [exact Hst|]. split; [exact Hls|exact Hnd].
Defined.

(** C4, amended.  Records are resolved in catalog order against the names
    assigned to all the records before them.  A record keeps its bare
    candidate when that name has not been assigned yet; when it has (as it
    has whenever an earlier record had the same candidate) the record gets
    [candidate_k] for the least [k >= 2] whose name is free. *)
Theorem collision_resolution pre it post sanitized :
  candidateOf it = Some sanitized ->
  exists finalName,
    emitted (pre ++ Some it :: post)
    = emitted pre ++ (finalName, item_id it)
                  :: resolved post ({[finalName]} ∪ usedAfter pre)
    /\ (finalName ∉ usedAfter pre)
    /\ ((sanitized ∉ usedAfter pre) -> finalName = sanitized)
    /\ ((sanitized ∈ usedAfter pre) ->
        exists k, (2 <= k)%Z /\ finalName = suffixed sanitized k
                  /\ forall j, (2 <= j < k)%Z -> suffixed sanitized j ∈ usedAfter pre)
    /\ ((exists earlier, Some earlier ∈ pre /\ candidateOf earlier = Some sanitized) ->
        sanitized ∈ usedAfter pre)
    /\ (pre = [] -> finalName = sanitized).
Proof.
  intros Hc. destruct (emitted_step pre it post sanitized Hc) as (n & Hn & E).
  exists n. split; [exact E|].
  apply finalNameOf_spec in Hn as [Hfree Hcases].
  split; [exact Hfree|].
  assert (Hbare : (sanitized ∉ usedAfter pre) -> n = sanitized).
  { intros Hnot. destruct Hcases as [[_ ->]|[Hin _]]; [reflexivity|contradiction]. }
  split; [exact Hbare|]. split; [|split].
  - intros Hin. destruct Hcases as [[Hnot _]|[_ Hk]]; [contradiction|exact Hk].
  - intros (earlier & Hearlier & Hsame). eapply earlier_candidate_used; eassumption.
  - intros ->. apply Hbare. rewrite usedAfter_nil. apply not_elem_of_empty.
Qed.

Lemma collision_resolution_witness :
  emitted [item 1 "Iron Ore"; item 2 "iron-ore"]
  = [(lit "IRON_ORE", 1%Z); (lit "IRON_ORE_2", 2%Z)].
Proof.
  destruct (collision_resolution [item 1 "Iron Ore"]
              {| item_id := 2; name := lit "iron-ore" |} [] (lit "IRON_ORE"))
    as (finalName & E & _ & _ & Hsuf & Hused & _); [vm_compute; reflexivity|].
  etransitivity; [exact E|].
  destruct Hsuf as (k & Hk & -> & Hbelow).
  - apply Hused. exists {| item_id := 1; name := lit "Iron Ore" |}.
    split; [now left|vm_compute; reflexivity].
  - assert (k = 2%Z) as ->; [|vm_compute; reflexivity].
    destruct (Z.eq_dec k 2%Z) as [|Hne]; [assumption|exfalso].
    assert (Hin : suffixed (lit "IRON_ORE") 2 ∈ usedAfter [item 1 "Iron Ore"])
      by (apply Hbelow; lia).
    apply has_true in Hin. vm_compute in Hin. discriminate.
Defined.

(** C4 as stated fails for a record that is the first with its candidate
    when an earlier record already got that name as a suffixed one: the
    third of [A], [A], [A_2] is the first with candidate [A_2], and is
    emitted as [A_2_2]. *)
Lemma earliest_candidate_not_bare :
  let third := {| item_id := 3; name := lit "A_2" |} in
  let pre := [item 1 "A"; item 2 "A"] in
  candidateOf third = Some (lit "A_2")
  /\ (forall earlier, Some earlier ∈ pre -> candidateOf earlier <> Some (lit "A_2"))
  /\ emitted (pre ++ [Some third])
     = [(lit "A", 1%Z); (lit "A_2", 2%Z); (lit "A_2_2", 3%Z)]
  /\ buildEnum (catalog (pre ++ [Some third])) None
     = Normal (text ["enum eItems {"; "    A = 1,"; "    A_2 = 2,";
                     "    A_2_2 = 3,"; "};"]%string).
Proof.
  intros third pre. split; [vm_compute; reflexivity|]. split.
  - intros earlier [E|[E|E%elem_of_nil]%elem_of_cons]%elem_of_cons; [| |contradiction];
      apply (inj Some) in E; subst earlier; vm_compute; discriminate.
  - split; vm_compute; reflexivity.
Qed.

(** C5.  The sanitizer.  The name computed on lines 89-94 is the result of
    the four steps: trim, every maximal run of code units outside
    [[A-Za-z0-9_]] replaced by one underscore, upper-case, an underscore in
    front of a leading digit.  Two invalid code units side by side give the
    same text as one of them; and ["9mm"] becomes ["_9MM"]. *)
Theorem sanitize_steps :
  (forall rawName,
      sanitize rawName =
      Spec.guardLeadingDigit (toUpperCase (Spec.collapseInvalidRuns (trim rawName))))
  /\ (forall a x y b,
         is_word x = false -> is_word y = false ->
         replace (a ++ x :: y :: b) SANITIZE_REGEX (lit "_")
         = replace (a ++ x :: b) SANITIZE_REGEX (lit "_"))
  /\ sanitize (lit "9mm") = lit "_9MM".
Proof.
  split; [exact sanitize_sanitizer|]. split; [|reflexivity].
  intros a x y b Hx Hy. now apply replace_scan_adjacent.
Qed.

Lemma sanitize_steps_witness :
  sanitize (lit " iron-! ore ") = lit "IRON_ORE"
  /\ replace (lit "a-!b") SANITIZE_REGEX (lit "_") = replace (lit "a-b") SANITIZE_REGEX (lit "_").
Proof.
  destruct sanitize_steps as (Hsteps & Hadj & _). split.
  - rewrite Hsteps. reflexivity.
  - apply (Hadj (lit "a") 45 33 (lit "b")); reflexivity.
Defined.

(** C6, amended.  The keyword guard.  A sanitised name that passes the
    [INVALID_NAMES] test goes on with one underscore appended when it is in
    [RESERVED_KEYWORDS], and unchanged otherwise; that name is what the
    [while] loop resolves against [usedNames], and the turn of the loop
    stores the line of the resolved name.  A record named [for], in any
    case and with any white space around it, goes on as [FOR_]: it is
    emitted as [FOR_] when that name is not in use yet, and as [FOR__k]
    with [k >= 2] when it is. *)
Theorem keyword_guard indent st it :
  sanitize (name it) ∉ INVALID_NAMES ->
  exists guarded finalName,
    (sanitize (name it) ∈ RESERVED_KEYWORDS -> guarded = sanitize (name it) ++ lit "_")
    /\ (sanitize (name it) ∉ RESERVED_KEYWORDS -> guarded = sanitize (name it))
    /\ finalNameOf (usedNames st) guarded = Some finalName
    /\ forBody indent st (Some it)
       = Normal {| lines := array_set (lines st) (lineIdx st)
                              (lineOf indent finalName (item_id it));
                   lineIdx := S (lineIdx st);
                   usedNames := {[finalName]} ∪ usedNames st |}
    /\ ((guarded ∉ usedNames st) -> finalName = guarded)
    /\ ((guarded ∈ usedNames st) ->
        exists k, (2 <= k)%Z /\ finalName = suffixed guarded k)
    /\ forall l core r,
         name it = l ++ core ++ r ->
         Forall (fun c => is_white_space c = true) l ->
         Forall (fun c => is_white_space c = true) r ->
         toUpperCase core = lit "FOR" ->
         guarded = lit "FOR_".
Proof.
  intros Hvalid.
  destruct (whileUsed_enough (usedNames st) (keywordGuard (sanitize (name it))))
    as [n Hn].
  exists (keywordGuard (sanitize (name it))), n.
  split; [|split; [|split; [exact Hn|split; [|split; [|split]]]]].
  - intros Hres. unfold keywordGuard. apply has_true in Hres. now rewrite Hres.
  - intros Hres. unfold keywordGuard. apply has_false in Hres. now rewrite Hres.
  - cbn [forBody]. apply has_false in Hvalid. rewrite Hvalid. cbn zeta.
    now rewrite Hn.
  - intros Hfree. apply finalNameOf_spec in Hn as [_ [[_ ->]|[Hin _]]];
      [reflexivity|contradiction].
  - intros Hin. apply finalNameOf_spec in Hn as [_ [[Hfree _]|(_ & k & Hk & -> & _)]];
      [contradiction|]. exists k. split; [exact Hk|reflexivity].
  - intros l core r Hname Hl Hr Hup.
    rewrite Hname, (sanitize_for l core r Hl Hr Hup).
    unfold keywordGuard. now rewrite FOR_reserved.
Qed.

Lemma keyword_guard_witness :
  forBody (lit "  ") (init 1) (item 8 "  For ")
  = Normal {| lines := [Some (lit "  FOR_ = 8,")]; lineIdx := 1;
              usedNames := {[lit "FOR_"]} ∪ ∅ |}.
Proof.
  destruct (keyword_guard (lit "  ") (init 1) {| item_id := 8; name := lit "  For " |})
    as (guarded & finalName & _ & _ & _ & Hbody & Hfree & _ & Hfor).
  - apply has_false. vm_compute. reflexivity.
  - etransitivity; [exact Hbody|].
    rewrite Hfree, (Hfor (lit "  ") (lit "For") (lit " ")); try reflexivity;
      try (repeat constructor).
    rewrite (Hfor (lit "  ") (lit "For") (lit " ")); try reflexivity;
      try (repeat constructor).
    apply not_elem_of_empty.
Defined.

(** C6 as stated fails for a record named [for] that finds [FOR_] in use:
    the second of two records named [for] is emitted as [FOR__2]. *)
Lemma for_taken_gets_suffix :
  buildEnum (catalog [item 1 "for"; item 2 "for"]) None
  = Normal (text ["enum eItems {"; "    FOR_ = 1,"; "    FOR__2 = 2,"; "};"]%string)
  /\ emitted [item 1 "for"; item 2 "for"]
     = [(lit "FOR_", 1%Z); (lit "FOR__2", 2%Z)].
Proof. split; vm_compute; reflexivity. Qed.









(** C10.  The accessors.  On a new object [itemsVersion] and [itemsCount]
    are both -1; after a load that went through, they are the version and
    the count that the parsed file declares. *)
Theorem accessors statSync_isFile readFileSync JSON_parse this filePath this' :
  loadFromFile statSync_isFile readFileSync JSON_parse this filePath = Normal this' ->
  itemsVersion new = (-1)%Z /\ itemsCount new = (-1)%Z
  /\ exists content parsed,
       readFileSync filePath = Normal content
       /\ JSON_parse content = Normal parsed
       /\ itemsData this' = parsed
       /\ forall data, parsed = Some data ->
                       itemsVersion this' = version data
                       /\ itemsCount this' = item_count data.
Proof.
  unfold loadFromFile. intros H. split; [reflexivity|]. split; [reflexivity|].
  destruct (endsWith filePath (lit ".json")); [|discriminate]. simpl in H.
  destruct (statSync_isFile filePath) as [[]| |]; try discriminate. simpl in H.
  destruct (readFileSync filePath) as [content| |]; try discriminate. simpl in H.
  destruct (JSON_parse content) as [parsed| |] eqn:Hp; try discriminate. simpl in H.
  assert (E : this' = {| itemsData := parsed |}) by congruence. subst this'.
  exists content, parsed. repeat split; try assumption;
    unfold itemsVersion, itemsCount; subst parsed; reflexivity.
Qed.

Lemma accessors_witness :
  let data := {| version := 5; item_count := 3; items := [item 1 "Dirt"] |} in
  let this' := {| itemsData := Some data |} in
  itemsVersion this' = 5%Z /\ itemsCount this' = 3%Z.
Proof.
  intros data this'.
  destruct (accessors (fun _ => Normal true) (fun _ => Normal (lit "{}"))
              (fun _ => Normal (Some data)) new (lit "items.json") this')
    as (_ & _ & content & parsed & _ & Hp & _ & Hacc); [reflexivity|].
  apply (Hacc data). inversion Hp. reflexivity.
Defined.

(** * Further properties of the code *)

(** ** Loading *)

Lemma endsWith_spec s suffix :
  endsWith s suffix = true <-> exists stem, s = stem ++ suffix.
Proof.
  unfold endsWith. rewrite bool_decide_eq_true. split.
  - intros H. exists (take (List.length s - List.length suffix) s).
    etransitivity; [symmetry; apply take_drop|]. f_equal. exact H.
  - intros [stem ->]. apply drop_app_length'.
    rewrite length_app. lia.
Qed.

Lemma endsWith_false s suffix :
  (forall stem, s <> stem ++ suffix) -> endsWith s suffix = false.
Proof.
  intros H. apply not_true_is_false. intros [stem E]%endsWith_spec.
  exact (H stem E).
Qed.

(** X1.  A path that does not end in [.json] is refused with the "invalid
    file type" error that quotes the path, whatever the file system holds:
    the test comes before the file is looked at. *)
Theorem loadFromFile_extension statSync_isFile readFileSync JSON_parse this filePath :
  (forall stem, filePath <> stem ++ lit ".json") ->
  loadFromFile statSync_isFile readFileSync JSON_parse this filePath
  = Throw (Error (lit "Invalid file type. Expected a .json file: " ++ filePath)).
Proof.
  intros H. unfold loadFromFile. now rewrite (endsWith_false _ _ H).
Qed.

Lemma loadFromFile_extension_witness :
  loadFromFile (fun _ => Throw (HostError (lit "ENOENT")))
               (fun _ => Throw (HostError (lit "ENOENT")))
               (fun _ => Throw (HostError (lit "SyntaxError")))
               new (lit "items.dat")
  = Throw (Error (lit "Invalid file type. Expected a .json file: items.dat")).
Proof.
  apply (loadFromFile_extension _ _ _ new (lit "items.dat")).
  intros stem E.
  assert (H : endsWith (lit "items.dat") (lit ".json") = true)
    by (apply endsWith_spec; now exists stem).
  vm_compute in H. discriminate.
Defined.

(** X2.  A [.json] path that is not a regular file is refused with the
    "not a valid file" error that quotes the path; the file is neither
    read nor parsed. *)
Theorem loadFromFile_not_a_file statSync_isFile readFileSync JSON_parse this stem :
  statSync_isFile (stem ++ lit ".json") = Normal false ->
  loadFromFile statSync_isFile readFileSync JSON_parse this (stem ++ lit ".json")
  = Throw (Error (lit "Not a valid file: " ++ stem ++ lit ".json")).
Proof.
  intros H. unfold loadFromFile.
  rewrite (proj2 (endsWith_spec _ _)) by now exists stem.
  cbn [negb]. now rewrite H.
Qed.

Lemma loadFromFile_not_a_file_witness :
  loadFromFile (fun _ => Normal false)
               (fun _ => Throw (HostError (lit "EISDIR")))
               (fun _ => Throw (HostError (lit "SyntaxError")))
               new (lit "data.json")
  = Throw (Error (lit "Not a valid file: data.json")).
Proof.
  apply (loadFromFile_not_a_file _ _ _ new (lit "data")). reflexivity.
Defined.

Lemma loadFromFile_Normal_iff statSync_isFile readFileSync JSON_parse this filePath this' :
  loadFromFile statSync_isFile readFileSync JSON_parse this filePath = Normal this'
  <-> (exists stem, filePath = stem ++ lit ".json")
      /\ statSync_isFile filePath = Normal true
      /\ exists content,
           readFileSync filePath = Normal content
           /\ JSON_parse content = Normal (itemsData this').
Proof.
  unfold loadFromFile. rewrite <- endsWith_spec. split.
  - destruct (endsWith filePath (lit ".json")); [|discriminate]. cbn [negb].
    destruct (statSync_isFile filePath) as [[]| |]; try discriminate.
    rewrite bind_Normal. cbn [negb].
    destruct (readFileSync filePath) as [content| |]; try discriminate.
    rewrite bind_Normal.
    destruct (JSON_parse content) as [parsed| |] eqn:Hp; try discriminate.
    rewrite bind_Normal. intros H.
    assert (E : this' = {| itemsData := parsed |}) by congruence. subst this'.
    split; [reflexivity|]. split; [reflexivity|]. exists content. now split.
  - intros (He & Hs & content & Hr & Hp). rewrite He. cbn [negb].
    rewrite Hs, bind_Normal. cbn [negb].
    rewrite Hr, bind_Normal, Hp, bind_Normal. destruct this'. reflexivity.
Qed.

(** X3.  A load goes through exactly when the path ends in [.json], the
    path is a regular file, the file can be read and its content parses;
    the object then holds the parsed document and nothing of what it held
    before. *)
Theorem loadFromFile_Normal statSync_isFile readFileSync JSON_parse this filePath this' :
  loadFromFile statSync_isFile readFileSync JSON_parse this filePath = Normal this'
  <-> (exists stem, filePath = stem ++ lit ".json")
      /\ statSync_isFile filePath = Normal true
      /\ exists content,
           readFileSync filePath = Normal content
           /\ JSON_parse content = Normal (itemsData this').
Proof.
  apply loadFromFile_Normal_iff.
Qed.

Lemma loadFromFile_Normal_witness :
  let data := {| version := 2; item_count := 1; items := [item 1 "Dirt"] |} in
  loadFromFile (fun _ => Normal true) (fun _ => Normal (lit "{}"))
               (fun _ => Normal (Some data)) (catalog []) (lit "a.json")
  = Normal {| itemsData := Some data |}.
Proof.
  intros data. apply loadFromFile_Normal.
  split; [now exists (lit "a")|]. split; [reflexivity|].
  exists (lit "{}"). split; reflexivity.
Defined.

(** X4.  What the file system or the parser throws is what [loadFromFile]
    throws: the exception of [statSync], and, for a regular file, that of
    [readFileSync] or of [JSON.parse]. *)
Theorem loadFromFile_host_exception
    statSync_isFile readFileSync JSON_parse this stem e :
  let filePath := stem ++ lit ".json" in
  (statSync_isFile filePath = Throw e
   \/ statSync_isFile filePath = Normal true
      /\ (readFileSync filePath = Throw e
          \/ exists content, readFileSync filePath = Normal content
                             /\ JSON_parse content = Throw e)) ->
  loadFromFile statSync_isFile readFileSync JSON_parse this filePath = Throw e.
Proof.
  intros filePath H. unfold loadFromFile.
  rewrite (proj2 (endsWith_spec _ _)) by now exists stem.
  cbn [negb].
  destruct H as [->|[-> [->|(content & Hr & Hp)]]]; [reflexivity..|].
  rewrite bind_Normal. cbn [negb]. now rewrite Hr, bind_Normal, Hp.
Qed.

Lemma loadFromFile_host_exception_witness :
  loadFromFile (fun _ => Normal true) (fun _ => Normal (lit "{"))
               (fun _ => Throw (HostError (lit "SyntaxError"))) new (lit "a.json")
  = Throw (HostError (lit "SyntaxError")).
Proof.
  apply (loadFromFile_host_exception _ _ _ new (lit "a")).
  right. split; [reflexivity|]. right. exists (lit "{"). split; reflexivity.
Defined.

(** X5.  A file whose content parses to [null] is loaded without an
    error, and yet leaves the object not loaded: after it, [buildEnum]
    throws the "not loaded" error whatever its argument, and both getters
    give -1. *)
Theorem load_then_buildEnum
    statSync_isFile readFileSync JSON_parse this filePath this' content tabSize :
  loadFromFile statSync_isFile readFileSync JSON_parse this filePath = Normal this' ->
  readFileSync filePath = Normal content ->
  JSON_parse content = Normal None ->
  V8.buildEnum this' tabSize = Throw NotLoaded
  /\ buildEnum this' tabSize = Throw NotLoaded
  /\ itemsVersion this' = (-1)%Z /\ itemsCount this' = (-1)%Z.
Proof.
  intros (_ & _ & content' & Hread' & Hparse')%loadFromFile_Normal_iff Hread Hparse.
  assert (content' = content) as -> by congruence.
  assert (E : itemsData this' = None) by congruence.
  unfold V8.buildEnum, buildEnum, itemsVersion, itemsCount. rewrite E.
  repeat split.
Qed.

Lemma load_then_buildEnum_witness :
  V8.buildEnum new (Some 2%Z) = Throw NotLoaded /\ itemsCount new = (-1)%Z.
Proof.
  destruct (load_then_buildEnum (fun _ => Normal true) (fun _ => Normal (lit "null"))
              (fun _ => Normal None) (catalog [item 1 "Dirt"]) (lit "a.json")
              new (lit "null") (Some 2%Z)) as (H & _ & _ & Hc); try reflexivity.
  split; [exact H|exact Hc].
Defined.

(** ** The call as a whole *)



Lemma resolved_survivors items used :
  resolved items used = resolved (Some <$> survivors items) used.
Proof.
  revert used. induction items as [|[it|] rest IH]; intros used.
  - reflexivity.
  - unfold survivors. cbn [omap list_omap survives resolved]. unfold candidateOf.
    destruct (has INVALID_NAMES (sanitize (name it))) eqn:Hinv; cbn [negb].
    + apply IH.
    + cbn [fmap list_fmap resolved]. unfold candidateOf. rewrite Hinv.
      destruct (finalNameOf used (keywordGuard (sanitize (name it)))); [|reflexivity].
      f_equal. apply IH.
  - apply IH.
Qed.

(** X7.  Only the surviving records count.  [buildEnum] returns the same
    on a catalog and on the catalog cut down to its surviving records:
    [null] entries and records with an invalid name leave no trace, not in
    the lines and not in the numbering of later collisions. *)
Theorem buildEnum_survivors v n v' n' entries tabSize :
  buildEnum {| itemsData := Some {| version := v; item_count := n;
                                    items := entries |} |} tabSize
  = buildEnum {| itemsData := Some {| version := v'; item_count := n';
                                      items := Some <$> survivors entries |} |} tabSize.
Proof.
  rewrite !buildEnum_loaded. cbn [items]. unfold emitted.
  now rewrite <- resolved_survivors.
Qed.

Lemma emitted_survivors_length items :
  List.length (emitted items) = List.length (survivors items).
Proof.
  rewrite <- (length_map snd), <- (length_map item_id). f_equal.
  apply resolved_ids.
Qed.

(** X8.  What the loop keeps true.  After any prefix of the catalog, the
    array still has the length it was allocated with, [lineIdx] is the
    number of surviving records seen and never passes the number of
    records seen, [usedNames] holds exactly [lineIdx] names, the slots
    below [lineIdx] hold lines and the slots from [lineIdx] on are empty:
    no write lands outside the array. *)
Theorem forItems_invariant indent pre post st :
  forItems indent pre (init (List.length (pre ++ post))) = Normal st ->
  List.length (lines st) = List.length (pre ++ post)
  /\ lineIdx st = List.length (survivors pre)
  /\ (lineIdx st <= List.length pre)%nat
  /\ size (usedNames st) = lineIdx st
  /\ (forall i, (i < lineIdx st)%nat -> exists line, lines st !! i = Some (Some line))
  /\ (forall i, (lineIdx st <= i < List.length (pre ++ post))%nat ->
                lines st !! i = Some None).
Proof.
  intros H.
  pose proof (resolved_length pre ∅) as Hlen. fold (emitted pre) in Hlen.
  assert (Hk : (List.length pre <= List.length (pre ++ post))%nat)
    by (rewrite length_app; lia).
  pose proof (forItems_resolved indent pre [] _ ∅ Hk) as E.
  change (forItems indent pre (init (List.length (pre ++ post))) = Normal st) in H.
  unfold init, new_Array in H. cbn [fmap list_fmap app List.length] in E.
  rewrite E in H. cbn zeta in H. clear E.
  fold (emitted pre) in H.
  set (new := map (fun e : jsstring * Z => lineOf indent e.1 e.2) (emitted pre)) in *.
  assert (Hnew : List.length new = List.length (emitted pre))
    by (unfold new; apply length_map).
  assert (Est : st = {| lines := (Some <$> new)
                                  ++ replicate (List.length (pre ++ post)
                                                - List.length new) None;
                        lineIdx := List.length new;
                        usedNames := list_to_set (map fst (emitted pre)) ∪ ∅ |})
    by congruence.
  subst st. cbn [lines lineIdx usedNames]. clear H.
  split; [|split; [|split; [|split; [|split]]]].
  - rewrite length_app, length_fmap, length_replicate. lia.
  - rewrite Hnew. apply emitted_survivors_length.
  - lia.
  - rewrite (right_id_L ∅ (∪)), size_list_to_set by apply resolved_fresh.
    rewrite length_map. lia.
  - intros i Hi. destruct (lookup_lt_is_Some_2 new i Hi) as [line Hline].
    exists line. rewrite lookup_app_l by (rewrite length_fmap; lia).
    now rewrite list_lookup_fmap, Hline.
  - intros i Hi. rewrite lookup_app_r by (rewrite length_fmap; lia).
    rewrite length_fmap. apply lookup_replicate_2. lia.
Qed.

Lemma forItems_invariant_witness :
  exists st,
    forItems [] [item 1 "Dirt"; item 2 "none"] (init 3) = Normal st
    /\ lineIdx st = 1%nat /\ List.length (lines st) = 3%nat.
Proof.
  eexists. split; [vm_compute; reflexivity|].
  destruct (forItems_invariant [] [item 1 "Dirt"; item 2 "none"] [item 3 "Rock"]
              _ ltac:(vm_compute; reflexivity)) as (Hlen & Hidx & _).
  split; [exact Hidx|exact Hlen].
Defined.

Lemma alloc_INVALID_NAMES x : x ∈ INVALID_NAMES -> V8.alloc x = Normal x.
Proof.
  rewrite elem_of_INVALID_NAMES.
  intros [-> | [-> | [-> | [-> | ->]]]]; vm_compute; reflexivity.
Qed.

Lemma V8_forItems_no_survivors indent items st :
  survivors items = [] -> V8.forItems indent items st = Normal st.
Proof.
  induction items as [|[it|] rest IH]; [reflexivity| |exact IH].
  unfold survivors. cbn [omap list_omap survives V8.forItems V8.forBody].
  destruct (has INVALID_NAMES (sanitize (name it))) eqn:Hinv; cbn [negb];
    [|discriminate].
  intros Hrest. rewrite (alloc_INVALID_NAMES _ (proj1 (has_true _ _) Hinv)).
  rewrite bind_Normal, Hinv, bind_Normal. exact (IH Hrest).
Qed.

(** X9.  A catalog without a surviving record (an empty one, or one made
    of [null] entries and invalid names) gives the braces with one empty
    line between them, for every indent width from 0 up to the longest
    string of the engine. *)
Theorem buildEnum_no_survivors data tabSize :
  (0 <= default 4 tabSize <= V8.MAX_STRING_LENGTH)%Z ->
  survivors (items data) = [] ->
  V8.buildEnum {| itemsData := Some data |} tabSize
  = Normal (text ["enum eItems {"; ""; "};"]%string).
Proof.
  intros Hw Hnone. unfold V8.buildEnum, V8.repeat_space. cbn [itemsData]. cbn zeta.
  destruct (Z.ltb_spec (default 4%Z tabSize) 0) as [Hneg|_]; [lia|].
  destruct (Z.ltb_spec V8.MAX_STRING_LENGTH (default 4%Z tabSize)) as [Hbig|_];
    [lia|]. cbn [orb].
  rewrite (V8_forItems_no_survivors _ _ _ Hnone), bind_Normal.
  reflexivity.
Qed.

Lemma buildEnum_no_survivors_witness :
  V8.buildEnum (catalog [None; item 1 " "; item 2 "null"]) (Some 8%Z)
  = Normal (text ["enum eItems {"; ""; "};"]%string).
Proof.
  apply (buildEnum_no_survivors
           {| version := 1; item_count := 3;
              items := [None; item 1 " "; item 2 "null"] |} (Some 8%Z)).
  - vm_compute. split; intros E; discriminate E.
  - vm_compute. reflexivity.
Defined.

(** ** The identifiers *)

Lemma is_identifier_unit_spec c :
  is_identifier_unit c = true <-> 65 <= c <= 90 \/ 48 <= c <= 57 \/ c = 95.
Proof.
  unfold is_identifier_unit.
  rewrite !orb_true_iff, !andb_true_iff, !N.leb_le, N.eqb_eq. lia.
Qed.

Lemma is_digit_spec c : Spec.is_digit c = true <-> 48 <= c <= 57.
Proof. unfold Spec.is_digit. rewrite andb_true_iff, !N.leb_le. lia. Qed.

Lemma upper_unit_identifier c :
  is_word c = true -> is_identifier_unit (upper_unit c) = true.
Proof.
  rewrite is_word_spec, is_identifier_unit_spec, upper_unit_spec.
  destruct ((97 <=? c) && (c <=? 122)) eqn:E.
  - apply andb_true_iff in E. rewrite !N.leb_le in E. lia.
  - apply andb_false_iff in E. rewrite !N.leb_gt in E. lia.
Qed.

Lemma identifier_unit_word c : is_identifier_unit c = true -> is_word c = true.
Proof. rewrite is_identifier_unit_spec, is_word_spec. lia. Qed.

Lemma upper_unit_fixed c : is_identifier_unit c = true -> upper_unit c = c.
Proof.
  rewrite is_identifier_unit_spec, upper_unit_spec. intros H.
  destruct ((97 <=? c) && (c <=? 122)) eqn:E; [|reflexivity].
  apply andb_true_iff in E. rewrite !N.leb_le in E. lia.
Qed.

Lemma sanitize_identifier_units rawName :
  Forall (fun c => is_identifier_unit c = true) (sanitize rawName).
Proof.
  unfold sanitize.
  assert (H : Forall (fun c => is_identifier_unit c = true)
                (toUpperCase (replace (trim rawName) SANITIZE_REGEX (lit "_")))).
  { unfold toUpperCase. apply Forall_map.
    eapply Forall_impl; [apply replace_SANITIZE_REGEX_word|].
    intros c Hc. now apply upper_unit_identifier. }
  destruct (_ && _); [|exact H].
  constructor; [reflexivity|exact H].
Qed.

Lemma digits_identifier_units d :
  Forall (fun c => is_identifier_unit c = true) (lit (NilEmpty.string_of_uint d)).
Proof. induction d; simpl; constructor; (reflexivity || assumption). Qed.

Lemma digits_digits d :
  Forall (fun c => Spec.is_digit c = true) (lit (NilEmpty.string_of_uint d)).
Proof. induction d; simpl; constructor; (reflexivity || assumption). Qed.

Lemma Number_toString_digits z :
  (0 <= z)%Z ->
  Number_toString z <> []
  /\ Forall (fun c => Spec.is_digit c = true) (Number_toString z).
Proof.
  intros Hz. unfold Number_toString.
  destruct z as [|p|p]; [split; [discriminate|repeat constructor]| |lia].
  split; [|apply digits_digits].
  cbn [Z.to_int NilEmpty.string_of_int].
  pose proof (DecimalPos.Unsigned.to_uint_nonnil p) as Hnil.
  destruct (Pos.to_uint p); [contradiction|discriminate..].
Qed.

(** Where an entry of the list of pairs comes from. *)
Lemma resolved_origin items used e :
  e ∈ resolved items used ->
  exists it used',
    Some it ∈ items
    /\ (sanitize (name it) ∉ INVALID_NAMES)
    /\ finalNameOf used' (keywordGuard (sanitize (name it))) = Some e.1
    /\ e.2 = item_id it.
Proof.
  revert used. induction items as [|[it|] rest IH]; intros used; simpl.
  - intros H. now apply not_elem_of_nil in H.
  - unfold candidateOf. case_has as Hinv.
    + intros (it' & used' & Hin & H)%IH. exists it', used'.
      split; [now right|exact H].
    + destruct (finalNameOf used _) as [n|] eqn:Hn.
      * intros [->|(it' & used' & Hin & H)%IH]%elem_of_cons.
        -- exists it, used. split; [now left|]. now repeat split.
        -- exists it', used'. split; [now right|exact H].
      * intros H. now apply not_elem_of_nil in H.
  - intros (it' & used' & Hin & H)%IH. exists it', used'.
    split; [now right|exact H].
Qed.

Lemma valid_nonempty sanitized : sanitized ∉ INVALID_NAMES -> sanitized <> [].
Proof.
  intros H ->. apply H. apply elem_of_INVALID_NAMES. now left.
Qed.

Lemma keywordGuard_nonempty sanitized :
  sanitized <> [] -> keywordGuard sanitized <> [].
Proof.
  intros H. unfold keywordGuard. destruct (has _ _); [|exact H].
  intros [E _]%app_eq_nil. contradiction.
Qed.

Lemma keywordGuard_head sanitized :
  sanitized <> [] -> head (keywordGuard sanitized) = head sanitized.
Proof.
  intros H. unfold keywordGuard. destruct (has _ _); [|reflexivity].
  now destruct sanitized.
Qed.

Lemma finalNameOf_head used sanitized finalName :
  sanitized <> [] ->
  finalNameOf used sanitized = Some finalName -> head finalName = head sanitized.
Proof.
  intros H [_ [[_ ->]|(_ & k & _ & -> & _)]]%finalNameOf_spec; [reflexivity|].
  unfold suffixed. now destruct sanitized.
Qed.

Lemma finalNameOf_identifier_units used sanitized finalName :
  Forall (fun c => is_identifier_unit c = true) sanitized ->
  finalNameOf used sanitized = Some finalName ->
  Forall (fun c => is_identifier_unit c = true) finalName.
Proof.
  intros Hw [_ [[_ ->]|(_ & k & Hk & -> & _)]]%finalNameOf_spec; [exact Hw|].
  unfold suffixed. rewrite !Forall_app. split; [exact Hw|]. split.
  - repeat constructor.
  - unfold Number_toString. destruct k as [|p|p]; [lia| |lia].
    apply digits_identifier_units.
Qed.

(** X10.  Every identifier that is emitted has the shape of an upper-case
    C identifier: it is not empty, it is made of upper-case letters, digits
    and underscores only, and it does not start with a digit. *)
Theorem emitted_identifier_shape items e :
  e ∈ emitted items ->
  e.1 <> []
  /\ Forall (fun c => is_identifier_unit c = true) e.1
  /\ forall c, head e.1 = Some c -> Spec.is_digit c = false.
Proof.
  intros (it & used & _ & Hvalid & Hn & _)%resolved_origin.
  pose proof (valid_nonempty _ Hvalid) as Hne.
  pose proof (keywordGuard_nonempty _ Hne) as Hg.
  assert (Hhead : head e.1 = head (sanitize (name it))).
  { rewrite (finalNameOf_head _ _ _ Hg Hn). now apply keywordGuard_head. }
  split; [|split].
  - intros E. apply Hne. apply head_None. now rewrite <- Hhead, E.
  - eapply finalNameOf_identifier_units; [|exact Hn].
    unfold keywordGuard. destruct (has _ _); [|apply sanitize_identifier_units].
    apply Forall_app. split; [apply sanitize_identifier_units|repeat constructor].
  - intros c Hc. rewrite Hhead in Hc. eapply sanitize_head, Hc.
Qed.

Lemma emitted_identifier_shape_witness :
  Forall (fun c => is_identifier_unit c = true) (lit "_9MM").
Proof.
  apply (emitted_identifier_shape [item 9 "9mm"] (lit "_9MM", 9%Z)).
  vm_compute. now left.
Defined.

(** Every reserved word ends in a letter. *)
Lemma RESERVED_KEYWORDS_last x :
  x ∈ RESERVED_KEYWORDS -> exists c, last x = Some c /\ 65 <= c <= 90.
Proof.
  unfold RESERVED_KEYWORDS. rewrite elem_of_list_to_set, list_elem_of_In.
  set (ends_in_letter := fun w : jsstring =>
         match last w with
         | Some c => (65 <=? c) && (c <=? 90)
         | None => false
         end).
  intros Hin.
  assert (Hall : forallb ends_in_letter
                   (map lit ["AUTO"; "BREAK"; "CASE"; "CHAR"; "CONST"; "CONTINUE";
                     "DEFAULT"; "DO"; "DOUBLE"; "ELSE"; "ENUM"; "EXTERN"; "FLOAT";
                     "FOR"; "GOTO"; "IF"; "INT"; "LONG"; "REGISTER"; "RETURN";
                     "SHORT"; "SIGNED"; "SIZEOF"; "STATIC"; "STRUCT"; "SWITCH";
                     "TYPEDEF"; "UNION"; "UNSIGNED"; "VOID"; "VOLATILE"; "WHILE";
                     "ASM"; "BOOL"; "CATCH"; "CLASS"; "CONST_CAST"; "DELETE";
                     "DYNAMIC_CAST"; "EXPLICIT"; "EXPORT"; "FALSE"; "FRIEND";
                     "INLINE"; "MUTABLE"; "NAMESPACE"; "NEW"; "OPERATOR"; "PRIVATE";
                     "PROTECTED"; "PUBLIC"; "REINTERPRET_CAST"; "STATIC_CAST";
                     "TEMPLATE"; "THIS"; "THROW"; "TRUE"; "TRY"; "TYPEID";
                     "TYPENAME"; "USING"; "VIRTUAL"; "WCHAR_T"; "ALIGNAS";
                     "ALIGNOF"; "CHAR16_T"; "CHAR32_T"; "CONSTEXPR"; "DECLTYPE";
                     "NOEXCEPT"; "NULLPTR"; "STATIC_ASSERT"; "THREAD_LOCAL";
                     "CONCEPT"; "REQUIRES"; "CO_AWAIT"; "CO_RETURN"; "CO_YIELD";
                     "NULL"; "DATE"; "TIME"]%string) = true)
    by (vm_compute; reflexivity).
  rewrite forallb_forall in Hall. specialize (Hall x Hin).
  unfold ends_in_letter in Hall. cbv beta in Hall. unfold codeunit in *. revert Hall.
  destruct (last x) as [c|]; cbn iota; [intros Hall|intros [=]].
  exists c. split; [reflexivity|].
  apply andb_true_iff in Hall. rewrite !N.leb_le in Hall. lia.
Qed.

Lemma not_reserved_by_last x c :
  last x = Some c -> ~ (65 <= c <= 90) -> x ∉ RESERVED_KEYWORDS.
Proof.
  intros Hl Hc (d & Hd & Hr)%RESERVED_KEYWORDS_last.
  rewrite Hl in Hd. injection Hd as ->. contradiction.
Qed.

Lemma keywordGuard_not_reserved sanitized :
  keywordGuard sanitized ∉ RESERVED_KEYWORDS.
Proof.
  unfold keywordGuard. case_has as Hres; [|exact Hres].
  apply (not_reserved_by_last _ UNDERSCORE); [apply last_snoc|].
  unfold UNDERSCORE. lia.
Qed.

Lemma suffixed_not_reserved sanitized k :
  (0 <= k)%Z -> suffixed sanitized k ∉ RESERVED_KEYWORDS.
Proof.
  intros Hk. destruct (Number_toString_digits k Hk) as [Hne Hdig].
  destruct (last (Number_toString k)) as [d|] eqn:Hlast;
    [|now apply last_None in Hlast].
  apply (not_reserved_by_last _ d).
  - unfold suffixed. apply last_app_Some. left.
    apply last_app_Some. left. exact Hlast.
  - apply last_Some_elem_of in Hlast.
    rewrite Forall_forall in Hdig. specialize (Hdig d Hlast).
    apply is_digit_spec in Hdig. lia.
Qed.

(** X11.  No identifier that is emitted is a member of
    [RESERVED_KEYWORDS]: the underscore of the guard takes a name out of
    the set, and a collision suffix never leads back into it. *)
Theorem emitted_not_reserved items e :
  e ∈ emitted items -> e.1 ∉ RESERVED_KEYWORDS.
Proof.
  intros (it & used & _ & _ & Hn & _)%resolved_origin.
  apply finalNameOf_spec in Hn as [_ [[_ ->]|(_ & k & Hk & -> & _)]].
  - apply keywordGuard_not_reserved.
  - apply suffixed_not_reserved. lia.
Qed.

Lemma emitted_not_reserved_witness : lit "CLASS_" ∉ RESERVED_KEYWORDS.
Proof.
  apply (emitted_not_reserved [item 3 "class"] (lit "CLASS_", 3%Z)).
  vm_compute. now left.
Defined.

(** ** The sanitised name, again *)

Lemma trim_words s : Forall (fun c => is_word c = true) s -> trim s = s.
Proof.
  intros H. destruct s as [|a s]; [reflexivity|].
  destruct (last (a :: s)) as [b|] eqn:Hb; [|now apply last_None in Hb].
  rewrite <- (app_nil_r (a :: s)) at 1.
  apply (trim_surrounded [] (a :: s) [] a b); try constructor; try assumption.
  - apply is_word_not_white. now inversion H.
  - apply is_word_not_white. rewrite Forall_forall in H.
    apply H. eapply last_Some_elem_of, Hb.
Qed.

(** X12.  Sanitising is idempotent: a sanitised name sanitises to itself. *)
Theorem sanitize_idempotent rawName :
  sanitize (sanitize rawName) = sanitize rawName.
Proof.
  pose proof (sanitize_identifier_units rawName) as Hid.
  pose proof (sanitize_head rawName) as Hhead.
  set (s := sanitize rawName) in *. unfold sanitize at 1.
  assert (Hw : Forall (fun c => is_word c = true) s)
    by (eapply Forall_impl; [exact Hid|]; intros c; apply identifier_unit_word).
  rewrite trim_words by exact Hw. unfold replace.
  rewrite replace_scan_words by exact Hw.
  assert (Hup : toUpperCase s = s).
  { unfold toUpperCase. clear Hhead Hw. induction Hid as [|c t Hc _ IH]; [reflexivity|].
    simpl. now rewrite upper_unit_fixed, IH. }
  rewrite Hup. destruct s as [|c t]; [reflexivity|].
  specialize (Hhead c eq_refl). unfold Spec.is_digit in Hhead.
  cbn [charCodeAt nth_error ge_num le_num]. now rewrite Hhead.
Qed.

Lemma trimStart_blank l :
  Forall (fun c => is_white_space c = true) l -> trimStart l = [].
Proof.
  intros H. rewrite <- (app_nil_r l). now rewrite trimStart_white.
Qed.

Lemma trimStart_blank_inv s :
  trimStart s = [] -> Forall (fun c => is_white_space c = true) s.
Proof.
  induction s as [|c t IH]; simpl; [constructor|].
  destruct (is_white_space c) eqn:Hc; [|discriminate].
  intros H. constructor; [exact Hc|exact (IH H)].
Qed.

Lemma trimStart_app s r : trimStart s <> [] -> trimStart (s ++ r) = trimStart s ++ r.
Proof.
  induction s as [|c t IH]; simpl; [contradiction|].
  destruct (is_white_space c); [exact IH|reflexivity].
Qed.

Lemma trim_blank s : Forall (fun c => is_white_space c = true) s -> trim s = [].
Proof. intros H. unfold trim. now rewrite trimStart_blank. Qed.

Lemma trim_surrounding l s r :
  Forall (fun c => is_white_space c = true) l ->
  Forall (fun c => is_white_space c = true) r ->
  trim (l ++ s ++ r) = trim s.
Proof.
  intros Hl Hr. unfold trim. rewrite trimStart_white by exact Hl.
  destruct (trimStart s) as [|c t] eqn:E.
  - rewrite trimStart_white by now apply trimStart_blank_inv.
    now rewrite trimStart_blank.
  - rewrite trimStart_app by (rewrite E; discriminate).
    rewrite E. now apply trimEnd_white.
Qed.

Lemma is_word_upper_unit c : is_word (upper_unit c) = is_word c.
Proof.
  apply Bool.eq_iff_eq_true. rewrite !is_word_spec, upper_unit_spec.
  destruct ((97 <=? c) && (c <=? 122)) eqn:E; [|tauto].
  apply andb_true_iff in E. rewrite !N.leb_le in E. lia.
Qed.

Lemma is_white_space_upper_unit c :
  is_white_space (upper_unit c) = is_white_space c.
Proof.
  apply Bool.eq_iff_eq_true. rewrite !is_white_space_spec, upper_unit_spec.
  destruct ((97 <=? c) && (c <=? 122)) eqn:E; [|tauto].
  apply andb_true_iff in E. rewrite !N.leb_le in E. lia.
Qed.

Lemma upper_unit_idempotent c : upper_unit (upper_unit c) = upper_unit c.
Proof.
  rewrite (upper_unit_spec (upper_unit c)), upper_unit_spec.
  destruct ((97 <=? c) && (c <=? 122)) eqn:E.
  - apply andb_true_iff in E. rewrite !N.leb_le in E.
    destruct ((97 <=? c - 32) && (c - 32 <=? 122)) eqn:E'; [|reflexivity].
    apply andb_true_iff in E'. rewrite !N.leb_le in E'. lia.
  - now rewrite E.
Qed.

Lemma trimStart_upper s :
  trimStart (map upper_unit s) = map upper_unit (trimStart s).
Proof.
  induction s as [|c t IH]; simpl; [reflexivity|].
  rewrite is_white_space_upper_unit. destruct (is_white_space c); [exact IH|reflexivity].
Qed.

Lemma trim_upper s : trim (map upper_unit s) = map upper_unit (trim s).
Proof.
  unfold trim, trimEnd.
  now rewrite trimStart_upper, <- map_rev, trimStart_upper, map_rev.
Qed.

Lemma replace_scan_upper matched s :
  replace_scan SANITIZE_REGEX [UNDERSCORE] matched (map upper_unit s)
  = map upper_unit (replace_scan SANITIZE_REGEX [UNDERSCORE] matched s).
Proof.
  revert matched. induction s as [|c t IH]; intros matched; simpl; [reflexivity|].
  rewrite is_word_upper_unit. destruct (is_word c); simpl.
  - now rewrite IH.
  - destruct matched; now rewrite IH.
Qed.

Lemma sanitize_upper s : sanitize (map upper_unit s) = sanitize s.
Proof.
  unfold sanitize, replace. change (lit "_") with [UNDERSCORE].
  rewrite trim_upper, replace_scan_upper. unfold toUpperCase.
  rewrite map_map.
  rewrite (map_ext _ _ (fun c => upper_unit_idempotent c)). reflexivity.
Qed.

(** X13.  Two names that differ only in the case of their ASCII letters
    and in the white space around them get the same sanitised name (and so
    collide). *)
Theorem sanitize_case_and_space l s r l' s' r' :
  Forall (fun c => is_white_space c = true) l ->
  Forall (fun c => is_white_space c = true) r ->
  Forall (fun c => is_white_space c = true) l' ->
  Forall (fun c => is_white_space c = true) r' ->
  map upper_unit s = map upper_unit s' ->
  sanitize (l ++ s ++ r) = sanitize (l' ++ s' ++ r').
Proof.
  intros Hl Hr Hl' Hr' Hcase.
  unfold sanitize at 1 2. rewrite !trim_surrounding by assumption.
  fold (sanitize s). fold (sanitize s').
  now rewrite <- (sanitize_upper s), <- (sanitize_upper s'), Hcase.
Qed.

Lemma sanitize_case_and_space_witness :
  sanitize (lit "  Iron ore") = sanitize (lit "IRON ORE ").
Proof.
  apply (sanitize_case_and_space (lit "  ") (lit "Iron ore") []
           [] (lit "IRON ORE") (lit " ")); try reflexivity; repeat constructor.
Defined.

(** X14.  A record whose name is empty or all white space is dropped: its
    name sanitises to the empty string and the turn of the loop leaves the
    state as it is. *)
Theorem blank_name_dropped indent st it :
  Forall (fun c => is_white_space c = true) (name it) ->
  sanitize (name it) = [] /\ forBody indent st (Some it) = Normal st.
Proof.
  intros H.
  assert (E : sanitize (name it) = []).
  { unfold sanitize. now rewrite trim_blank. }
  split; [exact E|]. cbn [forBody]. rewrite E.
  replace (has INVALID_NAMES []) with true by (vm_compute; reflexivity).
  reflexivity.
Qed.

Lemma blank_name_dropped_witness :
  forBody [] (init 1) (item 1 "   ") = Normal (init 1).
Proof.
  apply (blank_name_dropped [] (init 1) {| item_id := 1; name := lit "   " |}).
  repeat constructor.
Defined.

Lemma replace_scan_invalid matched s :
  Forall (fun c => is_word c = false) s ->
  replace_scan SANITIZE_REGEX [UNDERSCORE] matched s
  = if matched then [] else match s with [] => [] | _ => [UNDERSCORE] end.
Proof.
  intros H. revert matched.
  induction H as [|c t Hc _ IH]; intros matched; simpl.
  - now destruct matched.
  - rewrite Hc. simpl. rewrite (IH true). now destruct matched.
Qed.

(** X15.  A name that, once trimmed, is not empty and holds nothing but
    code units outside [[A-Za-z0-9_]] sanitises to a single underscore, and
    goes on to the [while] loop under that name. *)
Theorem all_invalid_name it :
  trim (name it) <> [] ->
  Forall (fun c => is_word c = false) (trim (name it)) ->
  sanitize (name it) = lit "_" /\ candidateOf it = Some (lit "_").
Proof.
  intros Hne Hall.
  assert (E : sanitize (name it) = lit "_").
  { unfold sanitize, replace. change (lit "_") with [UNDERSCORE].
    rewrite replace_scan_invalid by exact Hall.
    destruct (trim (name it)); [contradiction|reflexivity]. }
  split; [exact E|]. unfold candidateOf, keywordGuard. rewrite E.
  replace (has INVALID_NAMES (lit "_")) with false by (vm_compute; reflexivity).
  replace (has RESERVED_KEYWORDS (lit "_")) with false by (vm_compute; reflexivity).
  reflexivity.
Qed.

Lemma all_invalid_name_witness :
  sanitize (lit " ?!? ") = lit "_".
Proof.
  apply (all_invalid_name {| item_id := 1; name := lit " ?!? " |}).
  - vm_compute. discriminate.
  - vm_compute. repeat constructor.
Defined.

Lemma trimStart_length s : (List.length (trimStart s) <= List.length s)%nat.
Proof.
  induction s as [|c t IH]; simpl; [lia|].
  destruct (is_white_space c); simpl; lia.
Qed.

Lemma trim_length s : (List.length (trim s) <= List.length s)%nat.
Proof.
  unfold trim, trimEnd. rewrite length_rev.
  pose proof (trimStart_length (rev (trimStart s))) as H1.
  pose proof (trimStart_length s) as H2.
  rewrite length_rev in H1. lia.
Qed.

Lemma replace_scan_length matched s :
  (List.length (replace_scan SANITIZE_REGEX [UNDERSCORE] matched s)
   <= List.length s)%nat.
Proof.
  revert matched. induction s as [|c t IH]; intros matched; simpl; [lia|].
  destruct (is_word c); simpl.
  - specialize (IH false). lia.
  - specialize (IH true). destruct matched; simpl; lia.
Qed.

(** X16.  A sanitised name is at most one code unit longer than the name
    it comes from (the underscore before a leading digit). *)
Theorem sanitize_length rawName :
  (List.length (sanitize rawName) <= List.length rawName + 1)%nat.
Proof.
  unfold sanitize, replace, toUpperCase. change (lit "_") with [UNDERSCORE].
  pose proof (replace_scan_length false (trim rawName)) as H1.
  pose proof (trim_length rawName) as H2.
  destruct (_ && _); simpl; rewrite length_map; lia.
Qed.

(** X17.  However much fuel the [while] loop is given, when it is entered
    with the bare name and suffix 2 and ends with the name of suffix [k],
    then [k] is at most one more than the number of names in use: the body
    runs at most as many times as there are names in [usedNames]. *)
Theorem suffix_bound fuel used sanitized k :
  whileUsed fuel used sanitized sanitized 2 = Some (suffixed sanitized k) ->
  (2 <= k <= Z.of_nat (size used) + 1)%Z.
Proof.
  intros [_ [E|(Hbare & j & Hj & E & Hbelow)]]%whileUsed_Some.
  - now apply suffixed_ne in E.
  - apply suffixed_inj in E. subst j. split; [exact Hj|].
    set (tried := sanitized :: (suffixed sanitized <$> seqZ 2 (k - 2))).
    assert (Hnd : NoDup tried).
    { apply NoDup_cons. split.
      - intros (i & Hi & _)%list_elem_of_fmap. symmetry in Hi.
        now apply suffixed_ne in Hi.
      - apply NoDup_fmap_2; [apply suffixed_inj|apply NoDup_seqZ]. }
    assert (Hsub : list_to_set (C:=gset jsstring) tried ⊆ used).
    { intros x [->|(i & -> & Hi)%list_elem_of_fmap]%elem_of_list_to_set%elem_of_cons;
        [exact Hbare|].
      apply Hbelow. apply elem_of_seqZ in Hi. lia. }
    apply subseteq_size in Hsub. rewrite size_list_to_set in Hsub by exact Hnd.
    unfold tried in Hsub. simpl in Hsub.
    rewrite length_fmap, length_seqZ in Hsub. lia.
Qed.

Lemma suffix_bound_witness :
  whileUsed 100 (list_to_set [lit "A"; lit "A_2"]) (lit "A") (lit "A") 2
  = Some (lit "A_3")
  /\ (2 <= 3 <= Z.of_nat (size (list_to_set [lit "A"; lit "A_2"] : gset jsstring)) + 1)%Z.
Proof.
  assert (H : whileUsed 100 (list_to_set [lit "A"; lit "A_2"]) (lit "A") (lit "A") 2
              = Some (suffixed (lit "A") 3)) by (vm_compute; reflexivity).
  split; [exact H|]. exact (suffix_bound _ _ _ _ H).
Defined.

(** X18.  Records added at the end of a catalog leave the lines before
    them as they were: the pair at any position of the shorter catalog is
    the pair at that position of the longer one. *)
Theorem emitted_append_stable pre post i e :
  emitted pre !! i = Some e -> emitted (pre ++ post) !! i = Some e.
Proof.
  intros H. unfold emitted at 1. rewrite resolved_app.
  fold (emitted pre). now apply lookup_app_l_Some.
Qed.

Lemma emitted_append_stable_witness :
  emitted [item 1 "A"; item 2 "a"; item 3 "A_2"] !! 1%nat = Some (lit "A_2", 2%Z).
Proof.
  apply (emitted_append_stable [item 1 "A"; item 2 "a"] [item 3 "A_2"]).
  vm_compute. reflexivity.
Defined.



(** X20.  A name that starts with a digit once trimmed is never dropped:
    it sanitises to an underscore followed by its upper-cased text, which
    no entry of [INVALID_NAMES] equals.  In particular the entry ["0"] of
    the set is never met. *)
Theorem digit_name_survives rawName d :
  head (trim rawName) = Some d -> Spec.is_digit d = true ->
  head (sanitize rawName) = Some UNDERSCORE
  /\ has INVALID_NAMES (sanitize rawName) = false
  /\ forall indent st id,
       exists st', forBody indent st (Some {| item_id := id; name := rawName |})
                   = Normal st'
                   /\ lineIdx st' = S (lineIdx st).
Proof.
  intros Hhead Hd.
  assert (Hs : exists rest, sanitize rawName = UNDERSCORE :: d :: rest).
  { unfold sanitize, replace.
    destruct (trim rawName) as [|c t]; [discriminate|].
    injection Hhead as ->.
    assert (Hw : is_word d = true)
      by (apply is_word_spec; apply is_digit_spec in Hd; lia).
    assert (Hu : upper_unit d = d).
    { apply upper_unit_fixed, is_identifier_unit_spec.
      apply is_digit_spec in Hd. lia. }
    cbn [replace_scan in_class SANITIZE_REGEX]. rewrite Hw.
    cbn [negb toUpperCase map charCodeAt nth_error ge_num le_num]. rewrite Hu.
    unfold Spec.is_digit in Hd. rewrite Hd. now eexists. }
  destruct Hs as [rest Hs].
  assert (Hinv : has INVALID_NAMES (sanitize rawName) = false).
  { apply has_false. intros H%INVALID_NAMES_no_underscore. apply H.
    rewrite Hs. now left. }
  split; [now rewrite Hs|]. split; [exact Hinv|].
  intros indent st id. cbn [forBody name]. rewrite Hinv.
  destruct (whileUsed_enough (usedNames st) (keywordGuard (sanitize rawName)))
    as [n Hn].
  rewrite Hn. now eexists.
Qed.

Lemma digit_name_survives_witness :
  has INVALID_NAMES (sanitize (lit " 0 ")) = false.
Proof.
  apply (digit_name_survives (lit " 0 ") 48); reflexivity.
Defined.

(** ** Sample runs *)

(** A character outside the class at the end of a name leaves its
    underscore: ["Potion!"] and ["Potion?"] both go on as [POTION_]. *)
Example potion_names :
  emitted [item 1 "Potion!"; item 2 "Potion?"]
  = [(lit "POTION_", 1%Z); (lit "POTION__2", 2%Z)].
Proof. vm_compute. reflexivity. Qed.

(** A negative indent width, with a catalog loaded, is the other way the
    call can fail. *)
Example negative_indent :
  buildEnum (catalog [item 1 "Dirt"]) (Some (-1)%Z) = Throw RangeError
  /\ buildEnum new (Some (-1)%Z) = Throw NotLoaded.
Proof. split; reflexivity. Qed.

Example trim_sample : trim (lit "  a b  ") = lit "a b".
Proof. reflexivity. Qed.

Example replace_sample :
  replace (lit "a-!b c__d!") SANITIZE_REGEX (lit "_") = lit "a_b_c__d_".
Proof. reflexivity. Qed.

Example Number_toString_sample :
  Number_toString (-120) = lit "-120" /\ Number_toString 0 = lit "0".
Proof. split; reflexivity. Qed.
